(** * Storify: client-side encrypted file storage with OTP login

    A shallow embedding of the core of the repository:
    - [src/lib/encryption.ts]: the AES-GCM wrappers and the base64 / hex codecs;
    - [src/components/files/FileUpload.tsx]: [handleFileSelect], [uploadFile];
    - [src/components/files/FileList.tsx]: [downloadFile];
    - the auth service ([sendOtp]) and the edge function
      [supabase/functions/verify-otp-and-login/index.ts].

    JavaScript strings are sequences of UTF-16 code units, modelled as
    [list N]; the elements of a [Uint8Array] are [byte]s; integral JavaScript
    numbers are [Z]. The platform functions the code calls ([btoa], [atob],
    [parseInt], [Number.prototype.toString], [padStart]) are modelled after
    their standards (WHATWG HTML, ECMA-262). *)

From Stdlib Require Import ZArith NArith Lia Strings.Byte Ascii String.
From stdpp Require Import base option list gmap sorting.

Local Open Scope N_scope.

#[export] Instance byte_eq_dec : EqDecision byte := Byte.byte_eq_dec.

(** ** JavaScript strings and numbers *)

Module Js.

(** A JavaScript string: its UTF-16 code units. *)
Abbreviation jsstring := (list N).

(** A string literal of the source, as code units. *)
Fixpoint lit (s : string) : jsstring :=
  match s with
  | EmptyString => []
  | String a s' => N_of_ascii a :: lit s'
  end.

(** [String.prototype.substr(start, len)] for [0 <= start]. *)
Definition substr (s : jsstring) (start len : nat) : jsstring :=
  take len (drop start s).

(** The digit characters [0-9a-z] that [Number.prototype.toString(radix)]
    emits. *)
Definition digit_char (d : N) : N :=
  if d <? 10 then 48 + d else 87 + d.

Fixpoint digits_loop (fuel : nat) (radix n : N) (acc : jsstring) : jsstring :=
  match fuel with
  | O => acc
  | S fuel' =>
      let acc' := digit_char (n mod radix) :: acc in
      if n / radix =? 0 then acc' else digits_loop fuel' radix (n / radix) acc'
  end.

(** [n.toString(radix)] for a non-negative integer [n] and [2 <= radix <= 36].
    A number has at most [log2 n + 1] digits in any such radix, which is the
    fuel. *)
Definition toString (radix n : N) : jsstring :=
  digits_loop (S (N.to_nat (N.log2 n))) radix n [].

(** [s.padStart(len, fill)] with a one-unit [fill]. *)
Definition padStart (len : nat) (fill : N) (s : jsstring) : jsstring :=
  replicate (len - length s) fill ++ s.

(** ECMA-262 [StrWhiteSpaceChar]: WhiteSpace (TAB, VT, FF, SP, NBSP, ZWNBSP
    and the Unicode category Zs) and LineTerminator (LF, CR, LS, PS). *)
Definition is_StrWhiteSpaceChar (c : N) : bool :=
  (c =? 9) || (c =? 10) || (c =? 11) || (c =? 12) || (c =? 13) || (c =? 32)
  || (c =? 160) || (c =? 5760) || ((8192 <=? c) && (c <=? 8202))
  || (c =? 8232) || (c =? 8233) || (c =? 8239) || (c =? 8287)
  || (c =? 12288) || (c =? 65279).

Fixpoint trim_start (s : jsstring) : jsstring :=
  match s with
  | c :: s' => if is_StrWhiteSpaceChar c then trim_start s' else s
  | [] => []
  end.

(** The value of a code unit as a digit of radix 16, if it is one. *)
Definition hex_digit_value (c : N) : option Z :=
  if (48 <=? c) && (c <=? 57) then Some (Z.of_N (c - 48))
  else if (97 <=? c) && (c <=? 102) then Some (Z.of_N (c - 87))
  else if (65 <=? c) && (c <=? 70) then Some (Z.of_N (c - 55))
  else None.

(** The longest prefix of radix-16 digits, read as a number: [None] when the
    prefix is empty. *)
Fixpoint hex_prefix (s : jsstring) (acc : option Z) : option Z :=
  match s with
  | c :: s' =>
      match hex_digit_value c with
      | Some d => hex_prefix s' (Some (16 * default 0%Z acc + d)%Z)
      | None => acc
      end
  | [] => acc
  end.

(** [parseInt(s, 16)] (ECMA-262 19.2.5): leading white space is skipped, one
    sign is read, a [0x] / [0X] prefix is dropped, then the longest run of
    hexadecimal digits is read. [None] is [NaN]. The two zeros are not told
    apart. *)
Definition parseInt16 (s : jsstring) : option Z :=
  let s1 := trim_start s in
  let sign := match s1 with 45 :: _ => (-1)%Z | _ => 1%Z end in
  let s2 := match s1 with
            | 45 :: r => r
            | 43 :: r => r
            | _ => s1
            end in
  let s3 := match s2 with
            | 48 :: 120 :: r => r
            | 48 :: 88 :: r => r
            | _ => s2
            end in
  match hex_prefix s3 None with
  | Some v => Some (sign * v)%Z
  | None => None
  end.

(** [ToUint8]: what a store into a [Uint8Array] element keeps of a number;
    [NaN] is stored as 0. *)
Definition ToUint8 (v : option Z) : byte :=
  match v with
  | Some n => default x00 (Byte.of_N (Z.to_N (n mod 256)))
  | None => x00
  end.

(** *** Exceptions and the error monad *)

(** The exceptions and error values the modelled code can meet. *)
Inductive exn : Type :=
  | InvalidCharacterError   (* DOMException of [btoa] / [atob] *)
  | DataError               (* [importKey]: key material of a wrong length *)
  | OperationError          (* [decrypt]: the tag does not verify *)
  | StorageError            (* error value of a storage call *)
  | PostgrestError          (* error value of a table call *)
  | FunctionsError.         (* error value of [functions.invoke] *)

Inductive result (A : Type) : Type :=
  | Ok (a : A)
  | Throw (e : exn).
Arguments Ok {A} a.
Arguments Throw {A} e.

Definition bind {A B} (r : result A) (k : A -> result B) : result B :=
  match r with
  | Ok a => k a
  | Throw e => Throw e
  end.

(** Calls on a backend [W] that return a value or an error. *)
Definition io (W A : Type) : Type := W -> W * result A.

Definition io_ret {W A} (a : A) : io W A := fun w => (w, Ok a).

Definition io_bind {W A B} (m : io W A) (k : A -> io W B) : io W B :=
  fun w =>
    match m w with
    | (w', Ok a) => k a w'
    | (w', Throw e) => (w', Throw e)
    end.

(** A computation that only throws or returns, run on a backend. *)
Definition lift {W A} (r : result A) : io W A := fun w => (w, r).

(** *** [btoa] and [atob] (WHATWG HTML, forgiving-base64) *)

(** The base64 alphabet [A-Za-z0-9+/]: the character of a sextet. *)
Definition b64_char (i : N) : N :=
  if i <? 26 then 65 + i
  else if i <? 52 then 71 + i
  else if i <? 62 then i - 4
  else if i =? 62 then 43
  else 47.

(** The sextet of a character of the alphabet. *)
Definition b64_value (c : N) : option N :=
  if (65 <=? c) && (c <=? 90) then Some (c - 65)
  else if (97 <=? c) && (c <=? 122) then Some (c - 71)
  else if (48 <=? c) && (c <=? 57) then Some (c + 4)
  else if c =? 43 then Some 62
  else if c =? 47 then Some 63
  else None.

(** RFC 4648 base64 of a sequence of byte values, with [=] padding. *)
Fixpoint base64_encode (bs : list N) : jsstring :=
  match bs with
  | a :: b :: c :: rest =>
      b64_char (a / 4) :: b64_char ((a mod 4) * 16 + b / 16)
      :: b64_char ((b mod 16) * 4 + c / 64) :: b64_char (c mod 64)
      :: base64_encode rest
  | [a; b] =>
      [b64_char (a / 4); b64_char ((a mod 4) * 16 + b / 16);
       b64_char ((b mod 16) * 4); 61]
  | [a] => [b64_char (a / 4); b64_char ((a mod 4) * 16); 61; 61]
  | [] => []
  end.

(** The sextets and the padding of [base64_encode], each on its own. *)
Fixpoint sextets_of (bs : list N) : list N :=
  match bs with
  | a :: b :: c :: rest =>
      a / 4 :: (a mod 4) * 16 + b / 16 :: (b mod 16) * 4 + c / 64 :: c mod 64
      :: sextets_of rest
  | [a; b] => [a / 4; (a mod 4) * 16 + b / 16; (b mod 16) * 4]
  | [a] => [a / 4; (a mod 4) * 16]
  | [] => []
  end.

Fixpoint padding_of (bs : list N) : jsstring :=
  match bs with
  | _ :: _ :: _ :: rest => padding_of rest
  | [_; _] => [61]
  | [_] => [61; 61]
  | [] => []
  end.

(** [btoa(data)]: throws when a code unit is above U+00FF. *)
Definition btoa (data : jsstring) : result jsstring :=
  if forallb (fun c => c <=? 255) data then Ok (base64_encode data)
  else Throw InvalidCharacterError.

(** ASCII whitespace: TAB, LF, FF, CR, SPACE. *)
Definition is_ascii_whitespace (c : N) : bool :=
  (c =? 9) || (c =? 10) || (c =? 12) || (c =? 13) || (c =? 32).

(** Step 2 of forgiving-base64 decode: when the length is a multiple of 4,
    one or two trailing [=] are removed. *)
Definition strip_padding (data : jsstring) : jsstring :=
  if (length data mod 4 =? 0)%nat then
    match rev data with
    | c1 :: r1 =>
        if c1 =? 61 then
          match r1 with
          | c2 :: r2 => if c2 =? 61 then rev r2 else rev r1
          | [] => rev r1
          end
        else data
    | [] => data
    end
  else data.

(** Steps 5 to 8: sextets are read four at a time into three bytes; of a
    remainder of two sextets the last four bits are dropped, of three the last
    two. *)
Fixpoint decode_sextets (s : list N) : list N :=
  match s with
  | a :: b :: c :: d :: rest =>
      let n := ((a * 64 + b) * 64 + c) * 64 + d in
      n / 65536 :: (n / 256) mod 256 :: n mod 256 :: decode_sextets rest
  | [a; b; c] =>
      let n := ((a * 64 + b) * 64 + c) / 4 in
      [n / 256; n mod 256]
  | [a; b] => [(a * 64 + b) / 16]
  | _ => []
  end.

(** [atob(data)]: forgiving-base64 decode; the bytes come back as the code
    units of a string. *)
Definition atob (data : jsstring) : result jsstring :=
  let data1 := List.filter (fun c => negb (is_ascii_whitespace c)) data in
  let data2 := strip_padding data1 in
  if (length data2 mod 4 =? 1)%nat then Throw InvalidCharacterError
  else
    match mapM b64_value data2 with
    | Some sextets => Ok (decode_sextets sextets)
    | None => Throw InvalidCharacterError
    end.

End Js.

#[export] Instance result_ret : MRet Js.result := @Js.Ok.
#[export] Instance result_bind : MBind Js.result := fun A B k r => Js.bind r k.
#[export] Instance io_mret {W} : MRet (Js.io W) := @Js.io_ret W.
#[export] Instance io_mbind {W} : MBind (Js.io W) := fun A B k m => Js.io_bind m k.

(** ** src/lib/encryption.ts *)

Module Encryption.
Import Js.

(** *** The codecs *)

(** [new Uint8Array(buffer)] read at index [i]. *)
Definition at_index (bytes : list byte) (i : nat) : N :=
  Byte.to_N (default x00 (bytes !! i)).

Definition arrayBufferToBase64 (buffer : list byte) : result jsstring :=
  let bytes := buffer in
  let binary :=
    foldl (fun binary i => binary ++ [at_index bytes i]) [] (seq 0 (length bytes)) in
  btoa binary.

Definition base64ToArrayBuffer (base64 : jsstring) : result (list byte) :=
  binary ← atob base64;
  (let bytes := replicate (length binary) x00 in
   Ok (foldl (fun bytes i =>
                <[i := ToUint8 (Some (Z.of_N (default 0 (binary !! i))))]> bytes)
         bytes (seq 0 (length binary)))).

(** [b => b.toString(16).padStart(2, '0')]. *)
Definition hex_of_byte (b : byte) : jsstring :=
  padStart 2 48 (toString 16 (Byte.to_N b)).

Definition uint8ArrayToHex (array : list byte) : jsstring :=
  concat (map hex_of_byte array).

(** The values of [i] the loop [for (i = 0; i < n; i += 2)] goes through. *)
Definition even_indices (n : nat) : list nat :=
  map (fun k => 2 * k)%nat (seq 0 ((n + 1) / 2)).

(** [new Uint8Array(hex.length / 2)] truncates a fractional length; a store
    past the end of a typed array is ignored. Nothing in the function
    throws. *)
Definition hexToUint8Array (hex : jsstring) : result (list byte) :=
  let bytes := replicate (length hex / 2) x00 in
  Ok (foldl (fun bytes i =>
               <[(i / 2)%nat := ToUint8 (parseInt16 (substr hex i 2))]> bytes)
        bytes (even_indices (length hex))).

(** *** AES-256-GCM through [window.crypto.subtle] *)

(** The cipher of the platform: [gcm_encrypt key iv plaintext] is the
    ciphertext followed by the 128-bit tag; [gcm_decrypt] is [None] when the
    tag does not verify. *)
Class AesGcm : Type := {
  gcm_encrypt : list byte -> list byte -> list byte -> list byte;
  gcm_decrypt : list byte -> list byte -> list byte -> option (list byte)
}.

(** What the code relies on: decryption under the key and nonce of the
    encryption gives the plaintext back, and the tag adds 16 bytes. *)
Class AesGcmCorrect (C : AesGcm) : Prop := {
  gcm_decrypt_encrypt : forall key iv p,
    length key = 32%nat -> length iv = 12%nat ->
    gcm_decrypt key iv (gcm_encrypt key iv p) = Some p;
  gcm_encrypt_length : forall key iv p,
    length (gcm_encrypt key iv p) = (length p + 16)%nat
}.

(** A [CryptoKey] for AES-GCM, extractable: its raw bytes. *)
Record CryptoKey : Type := { key_raw : list byte }.

(** [crypto.getRandomValues(new Uint8Array(n))] from a source of random
    bytes. *)
Definition getRandomValues (entropy : nat -> byte) (n : nat) : list byte :=
  entropy <$> seq 0 n.

Definition generateEncryptionKey (entropy : nat -> byte) : CryptoKey :=
  {| key_raw := getRandomValues entropy 32 |}.

Definition exportKey (key : CryptoKey) : list byte := key_raw key.

(** [importKey('raw', keyData, AES-GCM)]: a key of 128, 192 or 256 bits. *)
Definition importKey (keyData : list byte) : result CryptoKey :=
  if bool_decide (length keyData ∈ [16; 24; 32]%nat)
  then Ok {| key_raw := keyData |}
  else Throw DataError.

Definition generateIV (entropy : nat -> byte) : list byte :=
  getRandomValues entropy 12.

Section Cipher.
Context `{C : AesGcm}.

(** [subtle.encrypt] refuses a plaintext above [2^39 - 256] bytes. *)
Definition encryptFile (fileData : list byte) (key : CryptoKey) (iv : list byte)
  : result (list byte) :=
  if N.of_nat (length fileData) <=? 2 ^ 39 - 256
  then Ok (gcm_encrypt (key_raw key) iv fileData)
  else Throw OperationError.

Definition decryptFile (encryptedData : list byte) (key : CryptoKey)
    (iv : list byte) : result (list byte) :=
  match gcm_decrypt (key_raw key) iv encryptedData with
  | Some p => Ok p
  | None => Throw OperationError
  end.

End Cipher.

End Encryption.

(** ** The storage bucket and the [files] table *)

Module Backend.
Import Js.

(** A row of the [files] table. *)
Record FileRecord : Type := {
  id : jsstring;
  user_id : jsstring;
  filename : jsstring;
  original_filename : jsstring;
  storage_path : jsstring;
  file_size : Z;
  mime_type : option jsstring;
  encrypted_key : jsstring;
  iv : jsstring;
  uploaded_at : Z
}.

(** The bucket [encrypted-files], by object path, and the table. *)
Record World : Type := {
  storage : gmap jsstring (list byte);
  files : list FileRecord
}.

(** [storage.from('encrypted-files').upload(path, blob)]: without [upsert]
    a path that exists is an error. *)
Definition storage_upload (ok : bool) (path : jsstring) (blob : list byte)
  : io World unit :=
  fun w =>
    if ok && bool_decide (storage w !! path = None)
    then ({| storage := <[path := blob]> (storage w); files := files w |}, Ok tt)
    else (w, Throw StorageError).

(** [storage.from('encrypted-files').download(path)]. *)
Definition storage_download (ok : bool) (path : jsstring) : io World (list byte) :=
  fun w =>
    match (if ok then storage w !! path else None) with
    | Some blob => (w, Ok blob)
    | None => (w, Throw StorageError)
    end.

(** [from('files').insert(row)]: [id] and [uploaded_at] are the defaults of
    the table. *)
Definition files_insert (ok : bool) (row : FileRecord) : io World unit :=
  fun w =>
    if ok && negb (existsb (fun r => bool_decide (id r = id row)) (files w))
    then ({| storage := storage w; files := files w ++ [row] |}, Ok tt)
    else (w, Throw PostgrestError).

(** [storage.from('encrypted-files').remove(paths)]: a path without an
    object is not an error. *)
Definition storage_remove (ok : bool) (paths : list jsstring) : io World unit :=
  fun w =>
    if ok
    then ({| storage := foldr delete (storage w) paths; files := files w |}, Ok tt)
    else (w, Throw StorageError).

(** [from('files').delete().eq('id', id)]. *)
Definition files_delete (ok : bool) (key : jsstring) : io World unit :=
  fun w =>
    if ok
    then ({| storage := storage w;
             files := List.filter (fun r => negb (bool_decide (id r = key)))
                        (files w) |}, Ok tt)
    else (w, Throw PostgrestError).

(** [.order('uploaded_at', { ascending: false })]: [a] may come before
    [b]. *)
Definition newer_first (a b : FileRecord) : Prop :=
  (uploaded_at b <= uploaded_at a)%Z.

#[export] Instance newer_first_dec (a b : FileRecord) : Decision (newer_first a b).
Proof. unfold newer_first. apply _. Defined.

(** [from('files').select('*').eq('user_id', uid)
     .order('uploaded_at', { ascending: false })]; rows uploaded at the same
    instant keep their table order. *)
Definition files_select (ok : bool) (uid : jsstring) (w : World)
  : result (list FileRecord) :=
  if ok
  then Ok (merge_sort newer_first
             (List.filter (fun r => bool_decide (user_id r = uid)) (files w)))
  else Throw PostgrestError.

End Backend.

(** ** src/components/files/FileUpload.tsx *)

Module FileUpload.
Import Js Encryption Backend.

(** A [File] of the browser: [size] is the property the code reads,
    [data] what [arrayBuffer()] resolves to. *)
Record File : Type := {
  name : jsstring;
  size : Z;
  type : jsstring;
  data : list byte
}.

(** The File API keeps [size] equal to the number of bytes. *)
Definition file_consistent (f : File) : Prop :=
  size f = Z.of_nat (length (data f)).

Record User : Type := { uid : jsstring }.

Inductive Status : Type := idle | encrypting | uploading | success | error.

Record UploadStatus : Type := { status : Status; progress : Z }.

Record Toast : Type := { title : jsstring; destructive : bool }.

(** The state of the component and the toasts it has shown. *)
Record Component : Type := {
  selectedFile : option File;
  uploadStatus : UploadStatus;
  toasts : list Toast
}.

Definition initial : Component :=
  {| selectedFile := None;
     uploadStatus := {| status := idle; progress := 0 |};
     toasts := [] |}.

Definition handleFileSelect (file : option File) (c : Component) : Component :=
  match file with
  | Some file =>
      if (size file >? 50 * 1024 * 1024)%Z
      then {| selectedFile := selectedFile c;
              uploadStatus := uploadStatus c;
              toasts := toasts c ++ [{| title := lit "File too large";
                                        destructive := true |}] |}
      else {| selectedFile := Some file;
              uploadStatus := {| status := idle; progress := 0 |};
              toasts := toasts c |}
  | None => c
  end.

(** What one run of [uploadFile] draws from outside. *)
Record UploadEnv : Type := {
  key_entropy : nat -> byte;
  iv_entropy : nat -> byte;
  randomUUID : jsstring;
  storage_upload_ok : bool;
  files_insert_ok : bool;
  new_file_id : jsstring;
  db_now : Z
}.

(** [name.split('.').pop() || '']: what follows the last dot. *)
Definition fileExtension (name : jsstring) : jsstring :=
  foldl (fun acc c => if c =? 46 then [] else acc ++ [c]) [] name.

Section Upload.
Context `{C : AesGcm}.

(** The body of the [try] block of [uploadFile]. *)
Definition uploadFile_try (env : UploadEnv) (selectedFile : File) (user : User)
  : io World unit :=
  let encryptionKey := generateEncryptionKey (key_entropy env) in
  let iv := generateIV (iv_entropy env) in
  let fileData := data selectedFile in
  encryptedData ← lift (encryptFile fileData encryptionKey iv);
  let exportedKey := exportKey encryptionKey in
  keyBase64 ← lift (arrayBufferToBase64 exportedKey);
  let ivHex := uint8ArrayToHex iv in
  let filename := randomUUID env ++ lit "." ++ fileExtension (name selectedFile) in
  let filePath := uid user ++ lit "/" ++ filename in
  _ ← storage_upload (storage_upload_ok env) filePath encryptedData;
  files_insert (files_insert_ok env)
    {| id := new_file_id env;
       user_id := uid user;
       filename := filename;
       original_filename := name selectedFile;
       storage_path := filePath;
       file_size := size selectedFile;
       mime_type := Some (type selectedFile);
       encrypted_key := keyBase64;
       iv := ivHex;
       uploaded_at := db_now env |}.

(** [uploadFile]: the state when the promise settles (the reset two
    seconds after a success is a later event). *)
Definition uploadFile (env : UploadEnv) (user : option User) (c : Component)
    (w : World) : Component * World :=
  match selectedFile c, user with
  | Some file, Some u =>
      match uploadFile_try env file u w with
      | (w', Ok _) =>
          ({| selectedFile := selectedFile c;
              uploadStatus := {| status := success; progress := 100 |};
              toasts := toasts c ++ [{| title := lit "Upload complete";
                                        destructive := false |}] |}, w')
      | (w', Throw _) =>
          ({| selectedFile := selectedFile c;
              uploadStatus := {| status := error; progress := 0 |};
              toasts := toasts c ++ [{| title := lit "Upload failed";
                                        destructive := true |}] |}, w')
      end
  | _, _ => (c, w)
  end.

End Upload.

(** The path and the record of an upload, as [uploadFile_try] builds
    them. *)
Definition upload_path (env : UploadEnv) (f : File) (u : User) : jsstring :=
  uid u ++ lit "/" ++ randomUUID env ++ lit "." ++ fileExtension (name f).

Definition upload_record (env : UploadEnv) (f : File) (u : User) : FileRecord :=
  {| id := new_file_id env;
     user_id := uid u;
     filename := randomUUID env ++ lit "." ++ fileExtension (name f);
     original_filename := name f;
     storage_path := upload_path env f u;
     file_size := size f;
     mime_type := Some (type f);
     encrypted_key :=
       base64_encode (Byte.to_N <$> exportKey (generateEncryptionKey (key_entropy env)));
     iv := uint8ArrayToHex (generateIV (iv_entropy env));
     uploaded_at := db_now env |}.

End FileUpload.

(** ** src/components/files/FileList.tsx *)

Module FileList.
Import Js Encryption Backend.

(** What the browser saves when the anchor is clicked. *)
Record Download : Type := {
  blob : list byte;
  blob_type : jsstring;
  download : jsstring
}.

Section Download.
Context `{C : AesGcm}.

(** The body of the [try] block of [downloadFile], up to the [Blob]. *)
Definition downloadFile_try (download_ok : bool) (file : FileRecord)
  : io World Download :=
  encryptedArrayBuffer ← storage_download download_ok (storage_path file);
  keyArrayBuffer ← lift (base64ToArrayBuffer (encrypted_key file));
  decryptionKey ← lift (importKey keyArrayBuffer);
  iv ← lift (hexToUint8Array (Backend.iv file));
  decryptedData ← lift (decryptFile encryptedArrayBuffer decryptionKey iv);
  mret {| blob := decryptedData;
          blob_type := match mime_type file with
                       | Some (c :: t) => c :: t
                       | _ => lit "application/octet-stream"
                       end;
          download := original_filename file |}.

(** [downloadFile]: the file handed to the browser, or the exception the
    [catch] reports as 'Download failed'. *)
Definition downloadFile (download_ok : bool) (file : FileRecord) (w : World)
  : result Download :=
  snd (downloadFile_try download_ok file w).

End Download.

(** The state of the list component: the [files] it shows, [loading], and
    the toasts it has shown. *)
Record ListState : Type := {
  shown : list FileRecord;
  loading : bool;
  list_toasts : list FileUpload.Toast
}.

Definition toast_of (title : jsstring) (destructive : bool) : FileUpload.Toast :=
  {| FileUpload.title := title; FileUpload.destructive := destructive |}.

(** [fetchFiles]: without a user it returns before the [try], so [loading]
    stays as it is. *)
Definition fetchFiles (select_ok : bool) (user : option FileUpload.User)
    (c : ListState) (w : World) : ListState :=
  match user with
  | None => c
  | Some u =>
      match files_select select_ok (FileUpload.uid u) w with
      | Ok data =>
          {| shown := data; loading := false; list_toasts := list_toasts c |}
      | Throw _ =>
          {| shown := shown c; loading := false;
             list_toasts := list_toasts c ++ [toast_of (lit "Error") true] |}
      end
  end.

(** The body of the [try] block of [deleteFile], up to the update of the
    local state. *)
Definition deleteFile_try (remove_ok delete_ok : bool) (file : FileRecord)
  : io World unit :=
  _ ← storage_remove remove_ok [storage_path file];
  files_delete delete_ok (id file).

Definition deleteFile (remove_ok delete_ok : bool) (file : FileRecord)
    (c : ListState) (w : World) : ListState * World :=
  match deleteFile_try remove_ok delete_ok file w with
  | (w', Ok _) =>
      ({| shown := List.filter (fun f => negb (bool_decide (id f = id file)))
                     (shown c);
          loading := loading c;
          list_toasts := list_toasts c ++ [toast_of (lit "File deleted") false] |},
       w')
  | (w', Throw _) =>
      ({| shown := shown c; loading := loading c;
          list_toasts := list_toasts c ++ [toast_of (lit "Delete failed") true] |},
       w')
  end.

End FileList.

(** ** The auth service: [authService.sendOtp] *)

(** IEEE 754 binary64 arithmetic on non-negative numbers, in units of
    [2^-1074], the least positive double: the integer [n] stands for the
    number [n / 2^1074]. Every non-negative double is such a multiple, with a
    numerator of at most 53 significant bits. *)
Module Float64.
Local Open Scope Z_scope.

(** Round to the nearest number with a 53-bit significand, ties to even.
    Numerators below [2^53] (the subnormal numbers and the least normal
    ones) are exact. *)
Definition round53 (n : Z) : Z :=
  if n <? 2 ^ 53 then n
  else
    let s := Z.log2 n - 52 in
    let q := Z.shiftr n s in
    let r := n - Z.shiftl q s in
    let half := 2 ^ (s - 1) in
    let q' := if r <? half then q
              else if half <? r then q + 1
              else if Z.even q then q else q + 1 in
    Z.shiftl q' s.

(** The integer [k] as a scaled number. *)
Definition of_int (k : Z) : Z := k * 2 ^ 1074.

(** [x * k] for a scaled [x] and an integer [k]. *)
Definition mul_int (x k : Z) : Z := round53 (x * k).

(** [x + y] for scaled [x], [y]. *)
Definition add (x y : Z) : Z := round53 (x + y).

(** [Math.floor(x)] of a scaled [x], as an integer. *)
Definition floor (x : Z) : Z := Z.shiftr x 1074.

(** The greatest double below 1, [1 - 2^-53]: [Math.random()] returns a
    double [x] with [0 <= x < 1], so a numerator between 0 and this one. *)
Definition below_one : Z := (2 ^ 53 - 1) * 2 ^ 1021.

End Float64.

Module Auth.
Import Js.
Local Open Scope Z_scope.

(** A row of [otp_verifications]; timestamps are milliseconds. The
    [password] column is nullable. *)
Record OtpRow : Type := {
  otp_id : jsstring;
  otp_email : jsstring;
  otp_code : jsstring;
  otp_password : option jsstring;
  otp_expires_at : Z;
  otp_verified : bool;
  otp_created_at : Z
}.

(** A row of [user_credentials]; [email] is UNIQUE. *)
Record CredRow : Type := {
  cred_email : jsstring;
  cred_password_hash : jsstring
}.

(** An account of the identity system. *)
Record AuthUser : Type := {
  user_id : jsstring;
  user_email : jsstring;
  user_password : option jsstring;
  user_email_confirm : bool
}.

Record World : Type := {
  otp_verifications : list OtpRow;
  user_credentials : list CredRow;
  auth_users : list AuthUser;
  sent_emails : list (jsstring * jsstring)
}.

Abbreviation io := (Js.io World).

(** [.maybeSingle()]: one row is the data, no row is [null]; several rows
    are an error, which leaves the data [null]. *)
Definition maybeSingle {A} (rows : list A) : option A :=
  match rows with
  | [r] => Some r
  | _ => None
  end.

(** [from('user_credentials').select('password_hash').eq('email', email)
     .maybeSingle()]: the data; [ok = false] is a failed call. *)
Definition select_credential (ok : bool) (email : jsstring) (w : World)
  : option CredRow :=
  if ok
  then maybeSingle (List.filter (fun r => bool_decide (cred_email r = email))
                      (user_credentials w))
  else None.

(** [from('otp_verifications').insert(row)]: the primary key is checked. *)
Definition insert_otp (ok : bool) (row : OtpRow) : io unit :=
  fun w =>
    if ok && negb (existsb (fun r => bool_decide (otp_id r = otp_id row))
                     (otp_verifications w))
    then ({| otp_verifications := otp_verifications w ++ [row];
             user_credentials := user_credentials w;
             auth_users := auth_users w;
             sent_emails := sent_emails w |}, Ok tt)
    else (w, Throw PostgrestError).

(** [from('user_credentials').insert(row)]: [email] is UNIQUE. *)
Definition insert_credential (ok : bool) (row : CredRow) : io unit :=
  fun w =>
    if ok && negb (existsb (fun r => bool_decide (cred_email r = cred_email row))
                     (user_credentials w))
    then ({| otp_verifications := otp_verifications w;
             user_credentials := user_credentials w ++ [row];
             auth_users := auth_users w;
             sent_emails := sent_emails w |}, Ok tt)
    else (w, Throw PostgrestError).

(** [functions.invoke('send-otp-email', { body: { email, otp } })]. *)
Definition invoke_send_otp_email (ok : bool) (email otp : jsstring) : io unit :=
  fun w =>
    if ok
    then ({| otp_verifications := otp_verifications w;
             user_credentials := user_credentials w;
             auth_users := auth_users w;
             sent_emails := sent_emails w ++ [(email, otp)] |}, Ok tt)
    else (w, Throw FunctionsError).

(** What one run of [sendOtp] draws from outside: the value of
    [Math.random()] (its numerator, see [Float64]), the password string the
    two further [Math.random()] calls spell, the clocks of the client and of
    the database, the key the table gives the new row, and whether each call
    to the backend goes through. *)
Record SendEnv : Type := {
  random_otp : Z;
  random_password : jsstring;
  date_now : Z;
  cred_select_ok : bool;
  otp_insert_ok : bool;
  new_otp_id : jsstring;
  db_now : Z;
  cred_insert_ok : bool;
  email_ok : bool
}.

(** [Math.floor(100000 + Math.random() * 900000)]. *)
Definition otp_number (m : Z) : Z :=
  Float64.floor (Float64.add (Float64.of_int 100000) (Float64.mul_int m 900000)).

(** [Math.floor(100000 + Math.random() * 900000).toString()]. *)
Definition generate_otp (m : Z) : jsstring :=
  toString 10 (Z.to_N (otp_number m)).

(** [existingCred?.password_hash || fresh]: an empty string is falsy. *)
Definition password_or (existingCred : option CredRow) (fresh : jsstring)
  : jsstring :=
  match existingCred with
  | Some c =>
      match cred_password_hash c with
      | [] => fresh
      | h => h
      end
  | None => fresh
  end.

(** The row [sendOtp] inserts. *)
Definition new_otp_row (env : SendEnv) (email otp password : jsstring) : OtpRow :=
  {| otp_id := new_otp_id env;
     otp_email := email;
     otp_code := otp;
     otp_password := Some password;
     otp_expires_at := date_now env + 10 * 60 * 1000;
     otp_verified := false;
     otp_created_at := db_now env |}.

(** [sendOtp(email)]: [Ok tt] is [{ error: null }], [Throw e] is
    [{ error }] out of the [catch]. *)
Definition sendOtp (env : SendEnv) (email : jsstring) : io unit :=
  let otp := generate_otp (random_otp env) in
  fun w =>
    let existingCred := select_credential (cred_select_ok env) email w in
    let password := password_or existingCred (random_password env) in
    (_ ← insert_otp (otp_insert_ok env) (new_otp_row env email otp password);
     _ ← match existingCred with
         | None =>
             insert_credential (cred_insert_ok env)
               {| cred_email := email; cred_password_hash := password |}
         | Some _ => mret tt
         end;
     invoke_send_otp_email (email_ok env) email otp) w.

End Auth.

(** ** supabase/functions/verify-otp-and-login/index.ts *)

Module VerifyOtp.
Import Js Auth.
Local Open Scope Z_scope.

Inductive Body : Type :=
  | ErrorBody (error : jsstring)
  | SuccessBody (message : jsstring).

Record Response : Type := { status : Z; body : Body }.

(** What one run of the handler draws from outside: the clock, the key a
    created account gets, and whether each call goes through. A call that
    fails returns its error value, it does not throw. *)
Record VerifyEnv : Type := {
  now : Z;
  otp_select_ok : bool;
  otp_update_ok : bool;
  cred_select_ok : bool;
  list_users_ok : bool;
  update_user_ok : bool;
  create_user_ok : bool;
  new_user_id : jsstring
}.

(** The filters of the OTP query. *)
Definition otp_matches (email otp : jsstring) (now : Z) (r : OtpRow) : bool :=
  bool_decide (otp_email r = email) && bool_decide (otp_code r = otp)
  && negb (otp_verified r) && (now <? otp_expires_at r).

(** [.order("created_at", { ascending: false }).limit(1)]: the row created
    last; of rows created at the same instant, the first in table order. *)
Definition most_recent (rows : list OtpRow) : option OtpRow :=
  foldl (fun best r =>
           match best with
           | None => Some r
           | Some b => if otp_created_at b <? otp_created_at r then Some r else Some b
           end) None rows.

(** The OTP query: [otpData]; a failed call leaves it [null]. *)
Definition select_otp (env : VerifyEnv) (email otp : jsstring) (w : World)
  : option OtpRow :=
  if otp_select_ok env
  then most_recent (List.filter (otp_matches email otp (now env)) (otp_verifications w))
  else None.

Definition set_verified (r : OtpRow) : OtpRow :=
  {| otp_id := otp_id r; otp_email := otp_email r; otp_code := otp_code r;
     otp_password := otp_password r; otp_expires_at := otp_expires_at r;
     otp_verified := true; otp_created_at := otp_created_at r |}.

(** [.update({ verified: true }).eq("id", id)]; the handler drops the
    outcome. *)
Definition mark_verified (ok : bool) (id : jsstring) (w : World) : World :=
  if ok
  then {| otp_verifications :=
            map (fun r => if bool_decide (otp_id r = id) then set_verified r else r)
              (otp_verifications w);
          user_credentials := user_credentials w;
          auth_users := auth_users w;
          sent_emails := sent_emails w |}
  else w.

(** [credData?.password_hash || otpData.password]. *)
Definition resolve_password (credData : option CredRow) (otpData : OtpRow)
  : option jsstring :=
  match credData with
  | Some c =>
      match cred_password_hash c with
      | [] => otp_password otpData
      | h => Some h
      end
  | None => otp_password otpData
  end.

(** [auth.admin.listUsers()]: the first page of 50 accounts; on an error
    the list is empty. *)
Definition listUsers (ok : bool) (w : World) : list AuthUser :=
  if ok then take 50 (auth_users w) else [].

(** [auth.admin.updateUserById(id, { password })]; outcome dropped. *)
Definition updateUserById (ok : bool) (id : jsstring) (password : option jsstring)
    (w : World) : World :=
  if ok
  then {| otp_verifications := otp_verifications w;
          user_credentials := user_credentials w;
          auth_users :=
            map (fun u => if bool_decide (user_id u = id)
                          then {| user_id := user_id u; user_email := user_email u;
                                  user_password := password;
                                  user_email_confirm := user_email_confirm u |}
                          else u) (auth_users w);
          sent_emails := sent_emails w |}
  else w.

(** [auth.admin.createUser({ email, password, email_confirm: true })]: an
    email that is registered already is refused; outcome dropped. *)
Definition createUser (ok : bool) (id email : jsstring) (password : option jsstring)
    (w : World) : World :=
  if ok && negb (existsb (fun u => bool_decide (user_email u = email)) (auth_users w))
  then {| otp_verifications := otp_verifications w;
          user_credentials := user_credentials w;
          auth_users := auth_users w ++
                          [{| user_id := id; user_email := email;
                              user_password := password;
                              user_email_confirm := true |}];
          sent_emails := sent_emails w |}
  else w.

Definition invalid_otp_response : Response :=
  {| status := 400; body := ErrorBody (lit "Invalid or expired OTP") |}.

Definition success_response : Response :=
  {| status := 200;
     body := SuccessBody (lit "OTP verified, please sign in with your credentials") |}.

(** The handler, for a POST whose body parsed to [{ email, otp }]. No call
    in it throws, so its [catch] is not reached. *)
Definition handler (env : VerifyEnv) (email otp : jsstring) (w : World)
  : World * Response :=
  match select_otp env email otp w with
  | None => (w, invalid_otp_response)
  | Some otpData =>
      let w1 := mark_verified (otp_update_ok env) (otp_id otpData) w in
      let credData := select_credential (cred_select_ok env) email w1 in
      let password := resolve_password credData otpData in
      let users := listUsers (list_users_ok env) w1 in
      let existingUser := find (fun u => bool_decide (user_email u = email)) users in
      let w2 :=
        match existingUser with
        | Some u => updateUserById (update_user_ok env) (user_id u) password w1
        | None => createUser (create_user_ok env) (new_user_id env) email password w1
        end in
      (w2, success_response)
  end.

End VerifyOtp.

(** ** The auth service: [authService.verifyOtp] *)

Module AuthClient.
Import Js Auth VerifyOtp.

Record Session : Type := { session_user : jsstring; session_email : jsstring }.

(** The errors [verifyOtp] can hand back. *)
Inductive AuthError : Type :=
  | EdgeFunctionError       (* the invocation failed or did not report success *)
  | InvalidCredentials      (* [signInWithPassword] refused *)
  | SignUpError.            (* [signUp] refused, other than 'already registered' *)

Inductive SignUpResult : Type := SignedUp | AlreadyRegistered | SignUpRefused.

(** [auth.signInWithPassword({ email, password })]: an account with this
    email, this password and a confirmed email. *)
Definition signInWithPassword (ok : bool) (email password : jsstring) (w : World)
  : option Session :=
  if ok
  then
    match find (fun u => bool_decide (user_email u = email)) (auth_users w) with
    | Some u =>
        if bool_decide (user_password u = Some password) && user_email_confirm u
        then Some {| session_user := user_id u; session_email := email |}
        else None
    | None => None
    end
  else None.

(** [auth.signUp({ email, password })]: an email that is registered is an
    error whose message holds 'already'; a new account has its email
    confirmed only when the project confirms automatically. *)
Definition signUp (ok autoconfirm : bool) (id email password : jsstring) (w : World)
  : World * SignUpResult :=
  if ok
  then
    if existsb (fun u => bool_decide (user_email u = email)) (auth_users w)
    then (w, AlreadyRegistered)
    else ({| otp_verifications := otp_verifications w;
             user_credentials := user_credentials w;
             auth_users := auth_users w ++
                             [{| user_id := id; user_email := email;
                                 user_password := Some password;
                                 user_email_confirm := autoconfirm |}];
             sent_emails := sent_emails w |}, SignedUp)
  else (w, SignUpRefused).

(** What one run of [verifyOtp] draws from outside: whether the invocation
    reaches the edge function, the run of the edge function, the password
    [Math.random()] spells, and the outcome of each further call. *)
Record ClientEnv : Type := {
  invoke_ok : bool;
  edge : VerifyEnv;
  client_cred_select_ok : bool;
  client_password : jsstring;
  client_cred_insert_ok : bool;
  sign_in_ok : bool;
  sign_up_ok : bool;
  autoconfirm : bool;
  sign_up_id : jsstring;
  retry_ok : bool
}.

(** [data?.success] of a response: [functions.invoke] turns a status outside
    2xx into an error. *)
Definition reports_success (r : Response) : bool :=
  (200 <=? status r)%Z && (status r <? 300)%Z
  && match body r with SuccessBody _ => true | ErrorBody _ => false end.

(** [verifyOtp(email, token)]: [inr session] is [{ data, error: null }],
    [inl e] is [{ data: null, error }] out of the [catch]. *)
Definition verifyOtp (env : ClientEnv) (email token : jsstring) (w : World)
  : World * (AuthError + Session) :=
  if invoke_ok env then
    let (w1, response) := handler (edge env) email token w in
    if reports_success response then
      let credData := select_credential (client_cred_select_ok env) email w1 in
      let password := password_or credData (client_password env) in
      let w2 := match credData with
                | None =>
                    fst (insert_credential (client_cred_insert_ok env)
                           {| cred_email := email; cred_password_hash := password |}
                           w1)
                | Some _ => w1
                end in
      match signInWithPassword (sign_in_ok env) email password w2 with
      | Some signInData => (w2, inr signInData)
      | None =>
          match signUp (sign_up_ok env) (autoconfirm env) (sign_up_id env)
                  email password w2 with
          | (w3, SignUpRefused) => (w3, inl SignUpError)
          | (w3, _) =>
              match signInWithPassword (retry_ok env) email password w3 with
              | Some retryData => (w3, inr retryData)
              | None => (w3, inl InvalidCredentials)
              end
          end
      end
    else (w1, inl EdgeFunctionError)
  else (w, inl EdgeFunctionError).

End AuthClient.

(** ** src/components/auth/AuthPage.tsx *)

Module AuthPage.
Import Js Auth VerifyOtp AuthClient.

Inductive Step : Type := email_step | otp_step.

(** The state of the page and the toasts it has shown. *)
Record State : Type := {
  isLoading : bool;
  email : jsstring;
  otp : jsstring;
  step : Step;
  isSignUp : bool;
  page_toasts : list (jsstring * bool)
}.

(** [z.string().length(6)]: six UTF-16 code units. *)
Definition otpSchema (s : jsstring) : bool := (length s =? 6)%nat.

Definition add_toast (title : jsstring) (destructive : bool) (c : State) : State :=
  {| isLoading := isLoading c; email := email c; otp := otp c; step := step c;
     isSignUp := isSignUp c;
     page_toasts := page_toasts c ++ [(title, destructive)] |}.

(** [handleVerifyOtp]: the state when the handler has run to its end;
    [isLoading] is back to [false] by the [finally]. *)
Definition handleVerifyOtp (env : ClientEnv) (c : State) (w : World)
  : State * World :=
  if otpSchema (otp c)
  then
    match verifyOtp env (email c) (otp c) w with
    | (w', inr _) =>
        ({| isLoading := false; email := email c; otp := otp c; step := step c;
            isSignUp := isSignUp c;
            page_toasts := page_toasts c ++ [(lit "Welcome!", false)] |}, w')
    | (w', inl _) =>
        ({| isLoading := false; email := email c; otp := otp c; step := step c;
            isSignUp := isSignUp c;
            page_toasts := page_toasts c ++ [(lit "Invalid OTP", true)] |}, w')
    end
  else (add_toast (lit "Invalid OTP") true c, w).

End AuthPage.

(** * Scenarios *)

(** A stand-in cipher that satisfies [AesGcmCorrect], for the run of the
    scenarios: the plaintext is reversed, and a tag of sixteen bytes taken
    from the key and the nonce is appended and checked. *)
Module SampleCipher.
Import Encryption.

Definition tag (key iv : list byte) : list byte :=
  take 16 (iv ++ key ++ replicate 16 x00).

Definition encrypt (key iv p : list byte) : list byte :=
  rev p ++ tag key iv.

Definition decrypt (key iv c : list byte) : option (list byte) :=
  let n := (length c - 16)%nat in
  if bool_decide (drop n c = tag key iv) && (16 <=? length c)%nat
  then Some (rev (take n c))
  else None.

#[export] Instance cipher : AesGcm :=
  {| gcm_encrypt := encrypt; gcm_decrypt := decrypt |}.

End SampleCipher.

(** Two requests for one address that draw the same code, a request whose
    email is not delivered, and verifications. *)
Module AuthScenario.
Import Js Auth VerifyOtp.
Local Open Scope Z_scope.

Definition empty_world : World :=
  {| otp_verifications := []; user_credentials := [];
     auth_users := []; sent_emails := [] |}.

Definition alice : jsstring := lit "a@x.com".

Definition first_request : SendEnv :=
  {| random_otp := 0; random_password := lit "k3v9q0zt81mxw4c7p2hd5b6n";
     date_now := 0; Auth.cred_select_ok := true; otp_insert_ok := true;
     new_otp_id := lit "otp-1"; db_now := 0; cred_insert_ok := true;
     email_ok := true |}.

Definition second_request : SendEnv :=
  {| random_otp := 0; random_password := lit "j8s1f6y2u0a9e3r5t7i4o1pl";
     date_now := 300000; Auth.cred_select_ok := true; otp_insert_ok := true;
     new_otp_id := lit "otp-2"; db_now := 300000; cred_insert_ok := true;
     email_ok := true |}.

(** A request whose email dispatch fails. *)
Definition undelivered_request : SendEnv :=
  {| random_otp := 2 ^ 1073; random_password := lit "k3v9q0zt81mxw4c7p2hd5b6n";
     date_now := 0; Auth.cred_select_ok := true; otp_insert_ok := true;
     new_otp_id := lit "otp-1"; db_now := 0; cred_insert_ok := true;
     email_ok := false |}.

(** A verification at time [t] in which every call goes through. *)
Definition verify_at (t : Z) : VerifyEnv :=
  {| now := t; otp_select_ok := true; otp_update_ok := true;
     cred_select_ok := true; list_users_ok := true; update_user_ok := true;
     create_user_ok := true; new_user_id := lit "user-1" |}.

(** A verification at time [t] in which only the OTP query goes through. *)
Definition verify_failing_at (t : Z) : VerifyEnv :=
  {| now := t; otp_select_ok := true; otp_update_ok := false;
     cred_select_ok := false; list_users_ok := false; update_user_ok := false;
     create_user_ok := false; new_user_id := lit "user-1" |}.

Definition one_code_world : World := fst (sendOtp first_request alice empty_world).

Definition two_codes_world : World := fst (sendOtp second_request alice one_code_world).

(** A login at time [t] in which every call goes through. *)
Definition a_login (t : Z) : AuthClient.ClientEnv :=
  {| AuthClient.invoke_ok := true; AuthClient.edge := verify_at t;
     AuthClient.client_cred_select_ok := true;
     AuthClient.client_password := lit "q7w8e9r0t1y2u3i4o5p6a7s8";
     AuthClient.client_cred_insert_ok := true; AuthClient.sign_in_ok := true;
     AuthClient.sign_up_ok := true; AuthClient.autoconfirm := false;
     AuthClient.sign_up_id := lit "user-2"; AuthClient.retry_ok := true |}.

End AuthScenario.

(** A file of ten bytes, a file of 51 MiB, and an upload. *)
Module FileScenario.
Import Js Encryption Backend FileUpload FileList.

Definition ten_bytes : File :=
  {| name := lit "notes.txt"; size := 10; type := lit "text/plain";
     data := [x48; x65; x6c; x6c; x6f; x2c; x20; x4a; x53; x21] |}.

Definition oversized_file : File :=
  {| name := lit "video.mp4"; size := 51 * 1024 * 1024; type := lit "video/mp4";
     data := replicate (Z.to_nat (51 * 1024 * 1024)) x00 |}.

Definition bob : User := {| uid := lit "7d1c" |}.

Definition empty_backend : World := {| storage := ∅; files := [] |}.

Definition an_upload : UploadEnv :=
  {| key_entropy := fun i => default x00 (Byte.of_N (N.of_nat (37 * i + 11) mod 256));
     iv_entropy := fun i => default x00 (Byte.of_N (N.of_nat (101 * i + 3) mod 256));
     randomUUID := lit "6f1e2d3c";
     storage_upload_ok := true;
     files_insert_ok := true;
     new_file_id := lit "file-1";
     db_now := 0 |}.

(** An upload whose insert into [files] fails. *)
Definition an_unrecorded_upload : UploadEnv :=
  {| key_entropy := key_entropy an_upload; iv_entropy := iv_entropy an_upload;
     randomUUID := randomUUID an_upload; storage_upload_ok := true;
     files_insert_ok := false; new_file_id := new_file_id an_upload;
     db_now := 0 |}.

(** A second upload, of another file. *)
Definition another_file : File :=
  {| name := lit "photo"; size := 3; type := [];
     data := [xff; xd8; xff] |}.

Definition another_upload : UploadEnv :=
  {| key_entropy := fun i => default x00 (Byte.of_N (N.of_nat (59 * i + 7) mod 256));
     iv_entropy := fun i => default x00 (Byte.of_N (N.of_nat (13 * i + 5) mod 256));
     randomUUID := lit "a0b1c2d3";
     storage_upload_ok := true;
     files_insert_ok := true;
     new_file_id := lit "file-2";
     db_now := 5 |}.

End FileScenario.

(** * Properties *)

(** ** The codecs *)

(** Goals on quotients and remainders by constants. *)
Ltac solve_div := zify; Z.to_euclidean_division_equations; lia.

(** Case analysis on the comparisons of a goal over [N]. *)
Ltac split_bool :=
  repeat match goal with
    | |- context [?a <? ?b] => destruct (N.ltb_spec a b)
    | |- context [?a <=? ?b] => destruct (N.leb_spec a b)
    | |- context [?a =? ?b] => is_var a; destruct (N.eqb_spec a b)
    | |- context [?a =? ?b] => destruct (N.eqb_spec a b)
    end; cbn [andb orb negb]; try lia; try reflexivity.

Section Codecs.
Import Js Encryption.

(** A loop that stores [f k] at index [k] of a fresh array, for [k] below
    [m]: the stores past the end are lost. *)
Lemma foldl_insert_seq {A} (f : nat -> A) (d : A) (n m : nat) :
  foldl (fun a k => <[k := f k]> a) (replicate n d) (seq 0 m)
  = (f <$> seq 0 (min n m)) ++ replicate (n - m) d.
Proof.
  induction m as [|m IH].
  - rewrite Nat.min_0_r, Nat.sub_0_r. reflexivity.
  - rewrite seq_S, foldl_app. simpl. rewrite IH.
    destruct (Nat.lt_ge_cases m n) as [Hlt|Hge].
    + rewrite !Nat.min_r by lia.
      replace (n - m)%nat with (S (n - S m)) by lia.
      rewrite seq_S, fmap_app. simpl.
      rewrite <- (Nat.add_0_r m) at 1.
      replace m with (length (f <$> seq 0 m)) at 1
        by (rewrite length_fmap, length_seq; reflexivity).
      rewrite insert_app_r. simpl. rewrite <- app_assoc. reflexivity.
    + rewrite !Nat.min_l by lia.
      replace (n - m)%nat with 0%nat by lia.
      replace (n - S m)%nat with 0%nat by lia.
      apply list_insert_ge.
      rewrite length_app, length_fmap, length_seq. simpl. lia.
Qed.

Lemma foldl_insert_seq_full {A} (f : nat -> A) (d : A) (n : nat) :
  foldl (fun a k => <[k := f k]> a) (replicate n d) (seq 0 n) = f <$> seq 0 n.
Proof.
  rewrite foldl_insert_seq, Nat.min_id, Nat.sub_diag. simpl.
  apply app_nil_r.
Qed.

Lemma foldl_map {A B C} (f : A -> B -> A) (g : C -> B) (a : A) (l : list C) :
  foldl f a (map g l) = foldl (fun a c => f a (g c)) a l.
Proof. revert a. induction l as [|c l IH]; intros a; simpl; [reflexivity | apply IH]. Qed.

Lemma foldl_pointwise {A B} (f g : A -> B -> A) (a : A) (l : list B) :
  (forall a b, f a b = g a b) -> foldl f a l = foldl g a l.
Proof.
  intros Hfg. revert a.
  induction l as [|b l IH]; intros a; simpl; [reflexivity|].
  rewrite Hfg. apply IH.
Qed.

(** What [hexToUint8Array] computes, without the loop: byte [k] is read from
    the two characters at [2k], and a last odd character is dropped. *)
Lemma hexToUint8Array_spec (hex : jsstring) :
  hexToUint8Array hex
  = Ok ((fun k => ToUint8 (parseInt16 (substr hex (2 * k) 2)))
          <$> seq 0 (length hex / 2)).
Proof.
  unfold hexToUint8Array, even_indices. f_equal.
  rewrite foldl_map.
  rewrite (foldl_pointwise _
             (fun a k => <[k := ToUint8 (parseInt16 (substr hex (2 * k) 2))]> a)).
  2: { intros a k. rewrite (Nat.mul_comm 2 k), Nat.div_mul by lia.
       rewrite (Nat.mul_comm k 2). reflexivity. }
  rewrite foldl_insert_seq.
  assert (Hle : (length hex / 2 <= (length hex + 1) / 2)%nat).
  { apply Nat.Div0.div_le_mono. lia. }
  rewrite Nat.min_l by exact Hle.
  replace (length hex / 2 - (length hex + 1) / 2)%nat with 0%nat by lia.
  apply app_nil_r.
Qed.

Lemma hex_of_byte_length (b : byte) : length (hex_of_byte b) = 2%nat.
Proof. destruct b; reflexivity. Qed.

Lemma hex_of_byte_parse (b : byte) : ToUint8 (parseInt16 (hex_of_byte b)) = b.
Proof. destruct b; reflexivity. Qed.

Lemma uint8ArrayToHex_cons (b : byte) (x : list byte) :
  uint8ArrayToHex (b :: x) = hex_of_byte b ++ uint8ArrayToHex x.
Proof. reflexivity. Qed.

Lemma uint8ArrayToHex_length (x : list byte) :
  length (uint8ArrayToHex x) = (2 * length x)%nat.
Proof.
  induction x as [|b x IH]; [reflexivity|].
  rewrite uint8ArrayToHex_cons, length_app, hex_of_byte_length, IH. simpl. lia.
Qed.

Lemma uint8ArrayToHex_substr (x : list byte) (k : nat) (b : byte) :
  x !! k = Some b ->
  substr (uint8ArrayToHex x) (2 * k) 2 = hex_of_byte b.
Proof.
  revert k. induction x as [|a x IH]; intros k Hk; [discriminate|].
  rewrite uint8ArrayToHex_cons. unfold substr.
  destruct k as [|k]; simpl in Hk.
  - injection Hk as ->. change (2 * 0)%nat with 0%nat. rewrite drop_0.
    apply take_app_length'. symmetry. apply hex_of_byte_length.
  - replace (2 * S k)%nat with (length (hex_of_byte a) + 2 * k)%nat
      by (rewrite hex_of_byte_length; lia).
    rewrite drop_app_add. apply (IH k Hk).
Qed.

Lemma hex_roundtrip (x : list byte) :
  hexToUint8Array (uint8ArrayToHex x) = Ok x.
Proof.
  rewrite hexToUint8Array_spec. f_equal.
  rewrite uint8ArrayToHex_length.
  rewrite (Nat.mul_comm 2), Nat.div_mul by lia.
  apply list_eq. intros k.
  rewrite list_lookup_fmap.
  destruct (x !! k) as [b|] eqn:Hk.
  - rewrite lookup_seq_lt by (apply lookup_lt_Some in Hk; exact Hk).
    change (0 + k)%nat with k. cbn [fmap option_fmap option_map].
    rewrite (uint8ArrayToHex_substr x k b Hk), hex_of_byte_parse. reflexivity.
  - rewrite lookup_seq_ge by (apply lookup_ge_None in Hk; exact Hk). reflexivity.
Qed.

(** *** base64 *)

Lemma list_ind3 {A} (P : list A -> Prop) :
  P [] -> (forall a, P [a]) -> (forall a b, P [a; b]) ->
  (forall a b c l, P l -> P (a :: b :: c :: l)) ->
  forall l, P l.
Proof.
  intros H0 H1 H2 H3. fix IH 1.
  intros [|a [|b [|c l]]]; [exact H0 | apply H1 | apply H2 | apply H3, IH].
Qed.

Lemma base64_encode_split (bs : list N) :
  base64_encode bs = (b64_char <$> sextets_of bs) ++ padding_of bs.
Proof.
  induction bs as [| a | a b | a b c l IH] using list_ind3; try reflexivity.
  cbn [base64_encode sextets_of padding_of fmap list_fmap app].
  rewrite IH. reflexivity.
Qed.

Lemma b64_char_not_whitespace (i : N) : is_ascii_whitespace (b64_char i) = false.
Proof. unfold b64_char. split_bool; unfold is_ascii_whitespace; split_bool. Qed.

Lemma b64_char_not_pad (i : N) : (b64_char i =? 61) = false.
Proof. unfold b64_char. split_bool. Qed.

Lemma b64_value_char (i : N) : i < 64 -> b64_value (b64_char i) = Some i.
Proof.
  intros Hi. unfold b64_value, b64_char.
  split_bool; f_equal; lia.
Qed.

Lemma base64_encode_no_whitespace (bs : list N) :
  List.filter (fun c => negb (is_ascii_whitespace c)) (base64_encode bs)
  = base64_encode bs.
Proof.
  induction bs as [| a | a b | a b c l IH] using list_ind3;
    cbn [base64_encode List.filter];
    rewrite ?b64_char_not_whitespace; cbn [negb];
    [reflexivity | reflexivity | reflexivity | rewrite IH; reflexivity].
Qed.

Lemma base64_encode_length (bs : list N) :
  (length (base64_encode bs) mod 4 = 0)%nat.
Proof.
  induction bs as [| a | a b | a b c l IH] using list_ind3; try reflexivity.
  cbn [base64_encode length].
  replace (S (S (S (S (length (base64_encode l))))))
    with (length (base64_encode l) + 1 * 4)%nat by lia.
  rewrite Nat.Div0.mod_add. exact IH.
Qed.

Lemma sextets_of_length (bs : list N) :
  (length (sextets_of bs) mod 4 <> 1)%nat.
Proof.
  induction bs as [| a | a b | a b c l IH] using list_ind3;
    try (cbn; lia).
  cbn [sextets_of length].
  replace (S (S (S (S (length (sextets_of l))))))
    with (length (sextets_of l) + 1 * 4)%nat by lia.
  rewrite Nat.Div0.mod_add. exact IH.
Qed.

Lemma rev_fmap_b64_char_head (s : list N) :
  match rev (b64_char <$> s) with
  | c :: _ => (c =? 61) = false
  | [] => True
  end.
Proof.
  destruct s as [|x s _] using rev_ind; [exact I|].
  rewrite fmap_app, rev_app_distr. simpl. apply b64_char_not_pad.
Qed.

Lemma strip_padding_encode (bs : list N) :
  strip_padding (base64_encode bs) = b64_char <$> sextets_of bs.
Proof.
  unfold strip_padding.
  rewrite base64_encode_length. cbn [Nat.eqb].
  rewrite base64_encode_split.
  assert (Hpad : padding_of bs = [] \/ padding_of bs = [61] \/ padding_of bs = [61; 61]).
  { induction bs as [| a | a b | a b c l IH] using list_ind3; simpl; auto. }
  pose proof (rev_fmap_b64_char_head (sextets_of bs)) as Hhd.
  destruct Hpad as [-> | [-> | ->]].
  - rewrite app_nil_r.
    destruct (rev (b64_char <$> sextets_of bs)) as [|c1 r1]; [reflexivity|].
    rewrite Hhd. reflexivity.
  - rewrite rev_app_distr. cbn [rev app N.eqb Pos.eqb].
    destruct (rev (b64_char <$> sextets_of bs)) as [|c1 r1] eqn:Hr.
    + apply (f_equal (@rev N)) in Hr. rewrite rev_involutive in Hr.
      rewrite Hr. reflexivity.
    + rewrite Hhd, <- Hr. apply rev_involutive.
  - rewrite rev_app_distr. cbn [rev app N.eqb Pos.eqb].
    apply rev_involutive.
Qed.

Lemma sextets_of_bounded (bs : list N) :
  Forall (fun b => b < 256) bs -> Forall (fun s => s < 64) (sextets_of bs).
Proof.
  induction bs as [| a | a b | a b c l IH] using list_ind3; intros Hbs;
    cbn [sextets_of].
  - constructor.
  - inversion_clear Hbs as [|? ? Ha _].
    repeat (constructor; [solve_div|]); constructor.
  - inversion_clear Hbs as [|? ? Ha Hbs']. inversion_clear Hbs' as [|? ? Hb _].
    repeat (constructor; [solve_div|]); constructor.
  - inversion_clear Hbs as [|? ? Ha Hbs']. inversion_clear Hbs' as [|? ? Hb Hbs].
    inversion_clear Hbs as [|? ? Hc Hl].
    repeat (constructor; [solve_div|]).
    apply IH, Hl.
Qed.

Lemma decode_sextets_of (bs : list N) :
  Forall (fun b => b < 256) bs -> decode_sextets (sextets_of bs) = bs.
Proof.
  induction bs as [| a | a b | a b c l IH] using list_ind3; intros Hbs;
    cbn [sextets_of decode_sextets].
  - reflexivity.
  - inversion_clear Hbs as [|? ? Ha _].
    f_equal. solve_div.
  - inversion_clear Hbs as [|? ? Ha Hbs']. inversion_clear Hbs' as [|? ? Hb _].
    f_equal; [|f_equal]; solve_div.
  - inversion_clear Hbs as [|? ? Ha Hbs']. inversion_clear Hbs' as [|? ? Hb Hbs].
    inversion_clear Hbs as [|? ? Hc Hl].
    rewrite (IH Hl).
    f_equal; [|f_equal; [|f_equal]]; solve_div.
Qed.

(** [atob] undoes [base64_encode] on byte values. *)
Lemma atob_base64_encode (bs : list N) :
  Forall (fun b => b < 256) bs -> atob (base64_encode bs) = Ok bs.
Proof.
  intros Hbs. unfold atob.
  rewrite base64_encode_no_whitespace, strip_padding_encode.
  rewrite length_fmap.
  destruct (Nat.eqb_spec (length (sextets_of bs) mod 4) 1) as [Heq|_];
    [exfalso; exact (sextets_of_length bs Heq)|].
  rewrite mapM_fmap_Forall_Some.
  - rewrite decode_sextets_of by exact Hbs. reflexivity.
  - eapply Forall_impl; [apply sextets_of_bounded, Hbs|].
    intros s Hs. apply b64_value_char, Hs.
Qed.

Lemma foldl_snoc_seq {A} (g : nat -> A) (n : nat) :
  foldl (fun s i => s ++ [g i]) [] (seq 0 n) = g <$> seq 0 n.
Proof.
  induction n as [|n IH]; [reflexivity|].
  rewrite seq_S, foldl_app, fmap_app, IH. reflexivity.
Qed.

Lemma fmap_seq_lookup {A B} (f : A -> B) (d : A) (l : list A) :
  (fun i => f (default d (l !! i))) <$> seq 0 (length l) = f <$> l.
Proof.
  apply list_eq. intros i. rewrite !list_lookup_fmap.
  destruct (l !! i) as [a|] eqn:Hi.
  - rewrite lookup_seq_lt by (apply lookup_lt_Some in Hi; exact Hi).
    change (0 + i)%nat with i. cbn [fmap option_fmap option_map].
    rewrite Hi. reflexivity.
  - rewrite lookup_seq_ge by (apply lookup_ge_None in Hi; exact Hi). reflexivity.
Qed.

Lemma byte_values_bounded (x : list byte) :
  Forall (fun b => b < 256) (Byte.to_N <$> x).
Proof.
  apply Forall_fmap, Forall_forall. intros b _.
  pose proof (Byte.to_N_bounded b). cbn. lia.
Qed.

Lemma ToUint8_of_byte (b : byte) : ToUint8 (Some (Z.of_N (Byte.to_N b))) = b.
Proof.
  unfold ToUint8. pose proof (Byte.to_N_bounded b).
  rewrite Z.mod_small by lia. rewrite N2Z.id, Byte.of_to_N. reflexivity.
Qed.

(** The text [arrayBufferToBase64] writes. *)
Lemma arrayBufferToBase64_spec (x : list byte) :
  arrayBufferToBase64 x = Ok (base64_encode (Byte.to_N <$> x)).
Proof.
  unfold arrayBufferToBase64, at_index.
  rewrite foldl_snoc_seq, (fmap_seq_lookup Byte.to_N x00 x).
  unfold btoa.
  replace (forallb (fun c => c <=? 255) (Byte.to_N <$> x)) with true; [reflexivity|].
  symmetry. apply forallb_forall. intros c Hc.
  apply list_elem_of_In, list_elem_of_fmap in Hc. destruct Hc as (b & -> & _).
  apply N.leb_le, Byte.to_N_bounded.
Qed.

Lemma base64ToArrayBuffer_encode (x : list byte) :
  base64ToArrayBuffer (base64_encode (Byte.to_N <$> x)) = Ok x.
Proof.
  unfold base64ToArrayBuffer.
  rewrite atob_base64_encode by apply byte_values_bounded.
  cbn [mbind result_bind bind]. f_equal.
  rewrite (foldl_insert_seq_full
             (fun i => ToUint8 (Some (Z.of_N (default 0 ((Byte.to_N <$> x) !! i)))))).
  rewrite (fmap_seq_lookup (fun n => ToUint8 (Some (Z.of_N n))) 0 (Byte.to_N <$> x)).
  rewrite <- list_fmap_compose.
  rewrite <- (list_fmap_id x) at 2.
  apply list_fmap_ext. intros _ b _. apply ToUint8_of_byte.
Qed.

Lemma base64_roundtrip (x : list byte) :
  (arrayBufferToBase64 x ≫= base64ToArrayBuffer) = Ok x.
Proof.
  rewrite arrayBufferToBase64_spec. cbn [mbind result_bind bind].
  apply base64ToArrayBuffer_encode.
Qed.

(** C2. Decoding what was encoded gives the bytes back, for byte sequences of
    every length: [hexToUint8Array (uint8ArrayToHex x)] is [x], and
    [base64ToArrayBuffer] applied to the text [arrayBufferToBase64 x] returns
    is [x]. Each codec is a function of its argument alone. *)
Theorem codec_roundtrip (x : list byte) :
  hexToUint8Array (uint8ArrayToHex x) = Ok x
  /\ (arrayBufferToBase64 x ≫= base64ToArrayBuffer) = Ok x.
Proof. split; [apply hex_roundtrip | apply base64_roundtrip]. Qed.

Example empty_input_encodings :
  uint8ArrayToHex [] = [] /\ arrayBufferToBase64 [] = Ok [].
Proof. split; reflexivity. Qed.

Example sample_encodings :
  uint8ArrayToHex [x00; xff; x1a] = lit "00ff1a"
  /\ arrayBufferToBase64 [x4d; x61] = Ok (lit "TWE=").
Proof. split; reflexivity. Qed.

(** *** Malformed input *)

(** [hexToUint8Array] returns for every string, with one byte per full pair
    of characters. *)
Lemma hexToUint8Array_total (hex : jsstring) :
  exists bytes, hexToUint8Array hex = Ok bytes
                /\ length bytes = (length hex / 2)%nat.
Proof.
  rewrite hexToUint8Array_spec. eexists. split; [reflexivity|].
  rewrite length_fmap, length_seq. reflexivity.
Qed.

Lemma elem_of_rev (c : N) (l : list N) : c ∈ rev l <-> c ∈ l.
Proof. rewrite !list_elem_of_In. symmetry. apply in_rev. Qed.

Lemma strip_padding_keeps (c : N) (data : jsstring) :
  c ≠ 61 -> c ∈ data -> c ∈ strip_padding data.
Proof.
  intros Hc Hin. unfold strip_padding.
  destruct (length data mod 4 =? 0)%nat; [|exact Hin].
  assert (Hrev : c ∈ rev data) by (apply elem_of_rev, Hin).
  destruct (rev data) as [|c1 r1]; [exact Hin|].
  destruct (N.eqb_spec c1 61) as [->|_]; [|exact Hin].
  apply elem_of_cons in Hrev as [?|Hr1]; [contradiction|].
  destruct r1 as [|c2 r2]; [inversion Hr1|].
  destruct (N.eqb_spec c2 61) as [->|_].
  - apply elem_of_cons in Hr1 as [?|Hr2]; [contradiction|].
    apply elem_of_rev, Hr2.
  - apply elem_of_rev, Hr1.
Qed.

(** [atob] throws on a character that is neither of the alphabet, nor [=],
    nor ASCII whitespace. *)
Lemma atob_rejects (c : N) (data : jsstring) :
  c ∈ data -> b64_value c = None -> is_ascii_whitespace c = false -> c ≠ 61 ->
  atob data = Throw InvalidCharacterError.
Proof.
  intros Hin Hval Hws Hpad. unfold atob.
  destruct (_ =? 1)%nat; [reflexivity|].
  replace (mapM b64_value _) with (@None (list N)); [reflexivity|].
  symmetry. apply mapM_None, Exists_exists. exists c. split; [|exact Hval].
  apply strip_padding_keeps; [exact Hpad|].
  apply list_elem_of_In, filter_In. split; [apply list_elem_of_In, Hin|].
  rewrite Hws. reflexivity.
Qed.

(** [parseInt] on text without a hexadecimal digit: skipping the white
    space, the sign and a [0x] leaves a character that is no digit, or
    nothing, and the result is [NaN]. *)
Lemma trim_start_Forall (P : N -> Prop) (s : jsstring) :
  Forall P s -> Forall P (trim_start s).
Proof.
  induction 1 as [|c s Hc Hs IH]; [constructor|].
  cbn. destruct (is_StrWhiteSpaceChar c); [exact IH|constructor; assumption].
Qed.

Lemma hex_prefix_no_digit (s : jsstring) :
  match s with c :: _ => hex_digit_value c = None | [] => True end ->
  hex_prefix s None = None.
Proof. destruct s as [|c r]; [reflexivity|]. cbn. intros ->. reflexivity. Qed.

Lemma strip_sign_cases (c : N) (r : jsstring) :
  match c with 45 | 43 => r | _ => c :: r end = r
  \/ match c with 45 | 43 => r | _ => c :: r end = c :: r.
Proof.
  destruct c as [|p]; [right; reflexivity|].
  do 6 (try destruct p as [p|p|]); auto.
Qed.

Lemma strip_0x_head (s : jsstring) :
  Forall (fun c => hex_digit_value c = None) s ->
  match match s with
        | 48 :: 120 :: r | 48 :: 88 :: r => r
        | _ => s
        end
  with
  | c :: _ => hex_digit_value c = None
  | [] => True
  end.
Proof.
  intros [|c r Hc Hr]; [exact I|].
  destruct c as [|p]; [exact Hc|].
  do 6 (try destruct p as [p|p|]); try exact Hc.
  vm_compute in Hc. discriminate Hc.
Qed.

Lemma parseInt16_no_digits (s : jsstring) :
  Forall (fun c => hex_digit_value c = None) s -> parseInt16 s = None.
Proof.
  intros H. apply (trim_start_Forall _ s) in H.
  unfold parseInt16. cbv zeta. revert H. generalize (trim_start s) as s1.
  intros s1 H.
  rewrite hex_prefix_no_digit; [reflexivity|].
  destruct H as [|c r Hc Hr]; [exact I|].
  destruct (strip_sign_cases c r) as [E|E]; rewrite E.
  - exact (strip_0x_head r Hr).
  - exact (strip_0x_head (c :: r) (Forall_cons_2 _ _ _ Hc Hr)).
Qed.

(** The pair of characters read for byte [k]. *)
Lemma substr_pair (s : jsstring) (k : nat) (a b : N) :
  s !! (2 * k)%nat = Some a -> s !! (2 * k + 1)%nat = Some b ->
  substr s (2 * k) 2 = [a; b].
Proof.
  intros Ha Hb. unfold substr.
  pose proof (lookup_drop s (2 * k) 0) as H0.
  pose proof (lookup_drop s (2 * k) 1) as H1.
  rewrite Nat.add_0_r, Ha in H0. rewrite Hb in H1.
  destruct (drop (2 * k) s) as [|x [|y t]]; try discriminate.
  cbn in H0, H1. injection H0 as ->. injection H1 as ->. reflexivity.
Qed.

Lemma substr_app_inside (s t : jsstring) (i len : nat) :
  (i + len <= length s)%nat -> substr (s ++ t) i len = substr s i len.
Proof.
  intros Hle. unfold substr.
  rewrite drop_app_le by lia.
  rewrite take_app_le; [reflexivity|]. rewrite length_drop. lia.
Qed.

(** A character after the last full pair is never read into a byte. *)
Lemma hexToUint8Array_odd_tail (s : jsstring) (c : N) :
  Nat.even (length s) = true ->
  hexToUint8Array (s ++ [c]) = hexToUint8Array s.
Proof.
  intros Heven. rewrite !hexToUint8Array_spec. f_equal.
  apply Nat.even_spec in Heven as [n Hn].
  rewrite length_app, Hn. cbn [length].
  replace ((2 * n + 1) / 2)%nat with n
    by (apply (Nat.div_unique _ 2 n 1); lia).
  replace (2 * n / 2)%nat with n
    by (apply (Nat.div_unique _ 2 n 0); lia).
  apply list_fmap_ext. intros i k Hk.
  apply lookup_seq in Hk as [-> Hlt]. cbn [Nat.add].
  rewrite substr_app_inside by lia. reflexivity.
Qed.

Lemma hexToUint8Array_lookup (s : jsstring) (k : nat) (a b : N) :
  s !! (2 * k)%nat = Some a -> s !! (2 * k + 1)%nat = Some b ->
  exists bytes, hexToUint8Array s = Ok bytes
                /\ bytes !! k = Some (ToUint8 (parseInt16 [a; b])).
Proof.
  intros Ha Hb. rewrite hexToUint8Array_spec. eexists. split; [reflexivity|].
  rewrite list_lookup_fmap, lookup_seq_lt.
  - cbn [fmap option_fmap option_map Nat.add]. rewrite (substr_pair s k a b Ha Hb). reflexivity.
  - apply lookup_lt_Some in Hb.
    apply Nat.div_le_lower_bound; lia.
Qed.

(** C3, as the code has it. [hexToUint8Array] never fails: it returns one
    byte for every full pair of characters, whatever they are; byte [k] is
    what [parseInt] reads from the pair at [2k], stored into the
    [Uint8Array], which is 0 when [parseInt] cannot read the pair, as for two
    characters that are no hexadecimal digits; and a character after the
    last full pair is ignored. [base64ToArrayBuffer] fails, with the
    [InvalidCharacterError] of [atob], on every string that holds a character
    which is neither of the base64 alphabet, nor [=], nor ASCII whitespace. *)
Theorem decode_malformed (s : jsstring) :
  (exists bytes,
     hexToUint8Array s = Ok bytes
     /\ length bytes = (length s / 2)%nat
     /\ (forall k a b,
           s !! (2 * k)%nat = Some a -> s !! (2 * k + 1)%nat = Some b ->
           bytes !! k = Some (ToUint8 (parseInt16 [a; b]))
           /\ (parseInt16 [a; b] = None -> bytes !! k = Some x00)
           /\ (hex_digit_value a = None -> hex_digit_value b = None ->
               bytes !! k = Some x00))
     /\ (forall c, Nat.even (length s) = true ->
                   hexToUint8Array (s ++ [c]) = Ok bytes))
  /\ (Exists (fun c => b64_value c = None /\ is_ascii_whitespace c = false
                       /\ c ≠ 61) s ->
      base64ToArrayBuffer s = Throw InvalidCharacterError).
Proof.
  split.
  - destruct (hexToUint8Array_total s) as (bytes & Hbytes & Hlen).
    exists bytes. split; [exact Hbytes|]. split; [exact Hlen|]. split.
    + intros k a b Ha Hb.
      destruct (hexToUint8Array_lookup s k a b Ha Hb) as (bytes' & Hb' & Hk).
      rewrite Hbytes in Hb'. injection Hb' as <-.
      split; [exact Hk|]. split.
      * intros Hnan. rewrite Hk, Hnan. reflexivity.
      * intros Hda Hdb. rewrite Hk, parseInt16_no_digits; [reflexivity|].
        repeat constructor; assumption.
    + intros c Heven. rewrite hexToUint8Array_odd_tail by exact Heven. exact Hbytes.
  - intros Hex. apply Exists_exists in Hex as (c & Hin & Hval & Hws & Hpad).
    unfold base64ToArrayBuffer.
    rewrite (atob_rejects c s Hin Hval Hws Hpad). reflexivity.
Qed.

Lemma decode_malformed_witness :
  Exists (fun c => b64_value c = None /\ is_ascii_whitespace c = false /\ c ≠ 61)
    (lit "TQ$=")
  /\ base64ToArrayBuffer (lit "TQ$=") = Throw InvalidCharacterError
  /\ exists bytes, hexToUint8Array (lit "TQ$=") = Ok bytes
                   /\ bytes !! 1%nat = Some x00.
Proof.
  assert (H : Exists (fun c => b64_value c = None /\ is_ascii_whitespace c = false
                               /\ c ≠ 61) (lit "TQ$=")).
  { apply Exists_cons_tl, Exists_cons_tl, Exists_cons_hd.
    split; [reflexivity|]. split; [reflexivity|]. discriminate. }
  split; [exact H|].
  split; [exact (proj2 (decode_malformed (lit "TQ$=")) H)|].
  destruct (proj1 (decode_malformed (lit "TQ$="))) as (bytes & Hbytes & _ & Hk & _).
  exists bytes. split; [exact Hbytes|].
  exact (proj2 (proj2 (Hk 1%nat 36 61 eq_refl eq_refl)) eq_refl eq_refl).
Defined.

(** C3 fails as stated: a hex string of odd length and a hex string of
    characters outside [0-9a-f] both decode to bytes, and base64 text with
    whitespace, which is outside the base64 alphabet, decodes as well. *)
Lemma decode_malformed_counterexample :
  ~ ((forall hex : jsstring,
        Nat.odd (length hex) = true \/ Exists (fun c => hex_digit_value c = None) hex ->
        exists e, hexToUint8Array hex = Throw e)
     /\ (forall base64 : jsstring,
           Exists (fun c => b64_value c = None) base64 ->
           exists e, base64ToArrayBuffer base64 = Throw e)).
Proof.
  intros [Hhex _].
  destruct (Hhex (lit "abc")) as [e He]; [left; reflexivity|].
  vm_compute in He. discriminate He.
Qed.

Example hexToUint8Array_odd : hexToUint8Array (lit "abc") = Ok [xab].
Proof. reflexivity. Qed.

Example hexToUint8Array_not_hex : hexToUint8Array (lit "zz1g") = Ok [x00; x01].
Proof. reflexivity. Qed.

Example base64ToArrayBuffer_whitespace :
  base64ToArrayBuffer (lit "TW E=") = Ok [x4d; x61].
Proof. reflexivity. Qed.

End Codecs.

(** ** The one-time code *)

(** Case analysis on the steps of [sendOtp]. *)
Ltac run_sendOtp :=
  unfold Auth.sendOtp, Auth.insert_otp, Auth.insert_credential,
    Auth.invoke_send_otp_email, mbind, io_mbind, Js.io_bind, mret, io_mret,
    Js.io_ret;
  cbn beta;
  repeat (match goal with
          | |- context [if ?b then _ else _] => destruct b eqn:?
          | |- context [match ?x with Some _ => _ | None => _ end] => destruct x eqn:?
          end; cbn [fst snd]).

Section Otp.
Import Js Auth.
Local Open Scope Z_scope.

Lemma pow2_divide (a b : Z) : 0 <= a <= b -> (2 ^ a | 2 ^ b).
Proof.
  intros Hab. exists (2 ^ (b - a)).
  rewrite <- Z.pow_add_r by lia. f_equal. lia.
Qed.

(** The rounded value is one of the two multiples of [2^s] around [n]. *)
Lemma round53_cases (n : Z) :
  2 ^ 53 <= n ->
  let P := 2 ^ (Z.log2 n - 52) in
  Float64.round53 n = (n / P) * P
  \/ (Float64.round53 n = (n / P + 1) * P /\ 0 < n mod P).
Proof.
  intros Hn P. unfold Float64.round53.
  destruct (Z.ltb_spec n (2 ^ 53)) as [Hlt|_]; [lia|].
  assert (Hlog : 53 <= Z.log2 n) by (apply Z.log2_le_pow2; lia).
  set (s := Z.log2 n - 52) in *.
  rewrite Z.shiftr_div_pow2 by lia.
  rewrite !Z.shiftl_mul_pow2 by lia. fold P.
  assert (Hhalf : 0 < 2 ^ (s - 1)) by (apply Z.pow_pos_nonneg; lia).
  assert (Hr : n - n / P * P = n mod P).
  { rewrite Z.mod_eq, (Z.mul_comm P); [reflexivity|].
    subst P. apply Z.pow_nonzero; lia. }
  rewrite Hr.
  destruct (Z.ltb_spec (n mod P) (2 ^ (s - 1))); [left; reflexivity|].
  destruct (Z.ltb_spec (2 ^ (s - 1)) (n mod P)); [right; split; [reflexivity|lia]|].
  destruct (Z.even (n / P)); [left; reflexivity|right; split; [reflexivity|lia]].
Qed.

Lemma multiple_above (P q r k : Z) :
  0 < P -> 0 < r -> P * q + r <= k * P -> (q + 1) * P <= k * P.
Proof. intros HP Hr Hle. assert (q < k) by nia. nia. Qed.

Lemma multiple_below (P q r k : Z) :
  0 < P -> r < P -> k * P <= P * q + r -> k * P <= q * P.
Proof. intros HP Hr Hle. assert (k <= q) by nia. nia. Qed.

Lemma round53_le (n B : Z) :
  0 <= n <= B -> (2 ^ 53 <= n -> (2 ^ (Z.log2 n - 52) | B)) ->
  Float64.round53 n <= B.
Proof.
  intros Hn Hdiv.
  destruct (Z.lt_ge_cases n (2 ^ 53)) as [Hlt|Hge].
  - unfold Float64.round53.
    destruct (Z.ltb_spec n (2 ^ 53)); lia.
  - destruct (Hdiv Hge) as [k Hk].
    assert (HP : 0 < 2 ^ (Z.log2 n - 52)).
    { apply Z.pow_pos_nonneg; [lia|].
      assert (53 <= Z.log2 n) by (apply Z.log2_le_pow2; lia). lia. }
    pose proof (round53_cases n Hge) as Hc. cbv zeta in Hc.
    assert (HP0 : 2 ^ (Z.log2 n - 52) <> 0) by lia.
    pose proof (Z.div_mod n _ HP0) as Hdm. clear HP0.
    pose proof (Z.mod_pos_bound n _ HP) as Hmod.
    revert Hc Hdm Hmod HP Hk.
    generalize (2 ^ (Z.log2 n - 52)). intros P.
    generalize (n / P) (n mod P). intros q r Hc Hdm Hmod HP ->.
    destruct Hc as [-> | [-> Hpos]].
    + nia.
    + apply (multiple_above P q r k); lia.
Qed.

Lemma round53_ge (n B : Z) :
  0 <= B <= n -> (2 ^ 53 <= n -> (2 ^ (Z.log2 n - 52) | B)) ->
  B <= Float64.round53 n.
Proof.
  intros Hn Hdiv.
  destruct (Z.lt_ge_cases n (2 ^ 53)) as [Hlt|Hge].
  - unfold Float64.round53.
    destruct (Z.ltb_spec n (2 ^ 53)); lia.
  - destruct (Hdiv Hge) as [k Hk].
    assert (HP : 0 < 2 ^ (Z.log2 n - 52)).
    { apply Z.pow_pos_nonneg; [lia|].
      assert (53 <= Z.log2 n) by (apply Z.log2_le_pow2; lia). lia. }
    pose proof (round53_cases n Hge) as Hc. cbv zeta in Hc.
    assert (HP0 : 2 ^ (Z.log2 n - 52) <> 0) by lia.
    pose proof (Z.div_mod n _ HP0) as Hdm. clear HP0.
    pose proof (Z.mod_pos_bound n _ HP) as Hmod.
    revert Hc Hdm Hmod HP Hk.
    generalize (2 ^ (Z.log2 n - 52)). intros P.
    generalize (n / P) (n mod P). intros q r Hc Hdm Hmod HP ->.
    pose proof (multiple_below P q r k HP ltac:(lia) ltac:(lia)).
    destruct Hc as [-> | [-> Hpos]]; nia.
Qed.

(** Below [2^1094] the rounding step divides every multiple of
    [2^1041]. *)
Lemma round53_step_divides (n B : Z) :
  n < 2 ^ 1094 -> (2 ^ 1041 | B) -> 2 ^ 53 <= n -> (2 ^ (Z.log2 n - 52) | B).
Proof.
  intros Hn HB Hge.
  assert (53 <= Z.log2 n) by (apply Z.log2_le_pow2; lia).
  assert (Z.log2 n < 1094) by (apply Z.log2_lt_pow2; lia).
  eapply Z.divide_trans; [|exact HB].
  apply pow2_divide. lia.
Qed.

(** [Math.random() * 900000] stays one rounding step below 900000. *)
Lemma mul_int_bound (m : Z) :
  0 <= m <= Float64.below_one ->
  0 <= Float64.mul_int m 900000 <= 900000 * 2 ^ 1074 - 2 ^ 1041.
Proof.
  unfold Float64.below_one. intros Hm. unfold Float64.mul_int. split.
  - apply round53_ge; [lia|]. intros _. apply Z.divide_0_r.
  - destruct (Z.le_gt_cases (m * 900000) (900000 * 2 ^ 1074 - 2 ^ 1041)) as [Hle|Hgt].
    + apply round53_le; [lia|].
      apply round53_step_divides.
      * lia.
      * exists (900000 * 2 ^ 33 - 1). reflexivity.
    + assert (Hlog : Z.log2 (m * 900000) = 1093).
      { apply Z.log2_unique; lia. }
      unfold Float64.round53.
      destruct (Z.ltb_spec (m * 900000) (2 ^ 53)) as [Hlt|_]; [lia|].
      rewrite Hlog. change (1093 - 52) with 1041. change (1041 - 1) with 1040.
      rewrite Z.shiftr_div_pow2 by lia.
      assert (Hq : m * 900000 / 2 ^ 1041 = 900000 * 2 ^ 33 - 1).
      { symmetry.
        apply (Z.div_unique_pos _ _ _
                 (m * 900000 - (900000 * 2 ^ 1074 - 2 ^ 1041))); lia. }
      rewrite Hq. rewrite !Z.shiftl_mul_pow2 by lia.
      destruct (Z.ltb_spec (m * 900000 - (900000 * 2 ^ 33 - 1) * 2 ^ 1041)
                  (2 ^ 1040)); lia.
Qed.

(** [Math.floor(100000 + Math.random() * 900000)] is an integer of six
    digits without a leading zero. *)
Lemma otp_number_range (m : Z) :
  0 <= m <= Float64.below_one -> 100000 <= otp_number m <= 999999.
Proof.
  intros Hm. pose proof (mul_int_bound m Hm) as Hp.
  unfold otp_number, Float64.floor, Float64.add, Float64.of_int.
  rewrite Z.shiftr_div_pow2 by lia.
  set (p := Float64.mul_int m 900000) in *.
  assert (Hlo : 100000 * 2 ^ 1074 <= Float64.round53 (100000 * 2 ^ 1074 + p)).
  { apply round53_ge; [lia|].
    apply round53_step_divides; [lia|].
    exists (100000 * 2 ^ 33). reflexivity. }
  assert (Hhi : Float64.round53 (100000 * 2 ^ 1074 + p)
                <= 1000000 * 2 ^ 1074 - 2 ^ 1041).
  { apply round53_le; [lia|].
    apply round53_step_divides; [lia|].
    exists (1000000 * 2 ^ 33 - 1). reflexivity. }
  split.
  - apply Z.div_le_lower_bound; lia.
  - apply Z.lt_succ_r, Z.div_lt_upper_bound; lia.
Qed.

Local Open Scope N_scope.

Lemma digits_loop_last (fuel : nat) (radix n : N) (acc : jsstring) :
  n / radix = 0 ->
  digits_loop (S fuel) radix n acc = digit_char (n mod radix) :: acc.
Proof. intros H. cbn [digits_loop]. rewrite H. reflexivity. Qed.

Lemma digits_loop_more (fuel : nat) (radix n : N) (acc : jsstring) :
  n / radix <> 0 ->
  digits_loop (S fuel) radix n acc
  = digits_loop fuel radix (n / radix) (digit_char (n mod radix) :: acc).
Proof.
  intros H. cbn [digits_loop].
  destruct (N.eqb_spec (n / radix) 0) as [H0|_]; [contradiction|reflexivity].
Qed.

Lemma digit_char_decimal (x : N) : digit_char (x mod 10) = 48 + x mod 10.
Proof.
  unfold digit_char. pose proof (N.mod_lt x 10 ltac:(lia)).
  destruct (N.ltb_spec (x mod 10) 10); [reflexivity|lia].
Qed.

(** The decimal form of a number of six digits. *)
Lemma toString_six_digits (n : N) :
  100000 <= n <= 999999 ->
  toString 10 n
  = [48 + n / 100000; 48 + (n / 10000) mod 10; 48 + (n / 1000) mod 10;
     48 + (n / 100) mod 10; 48 + (n / 10) mod 10; 48 + n mod 10].
Proof.
  intros Hn. unfold toString.
  assert (Hlog : 16 <= N.log2 n).
  { change 16 with (N.log2 65536). apply N.log2_le_mono. lia. }
  destruct (N.to_nat (N.log2 n)) as [|[|[|[|[|k]]]]] eqn:Hk; try lia.
  do 5 (rewrite digits_loop_more by solve_div).
  rewrite digits_loop_last by solve_div.
  rewrite !digit_char_decimal.
  rewrite !N.Div0.div_div.
  change (10 * 10) with 100. change (10 * 100) with 1000.
  change (10 * 1000) with 10000. change (10 * 10000) with 100000.
  rewrite (N.mod_small (n / 100000) 10); [reflexivity|].
  apply N.Div0.div_lt_upper_bound; lia.
Qed.

Local Open Scope Z_scope.

(** [sendOtp] appends its row to [otp_verifications], unless the insert
    itself is refused. *)
Lemma sendOtp_rows (env : SendEnv) (email : jsstring) (w : World) :
  let existingCred := select_credential (Auth.cred_select_ok env) email w in
  let password := password_or existingCred (random_password env) in
  let row := new_otp_row env email (generate_otp (random_otp env)) password in
  otp_verifications (fst (sendOtp env email w)) = otp_verifications w ++ [row]
  \/ (fst (sendOtp env email w) = w
      /\ snd (sendOtp env email w) = Throw PostgrestError).
Proof. cbv zeta. run_sendOtp; auto. Qed.

(** The code is the decimal form of [otp_number]. *)
Lemma generate_otp_digits (m : Z) :
  0 <= m <= Float64.below_one ->
  length (generate_otp m) = 6%nat
  /\ Forall (fun c => (48 <= c <= 57)%N) (generate_otp m)
  /\ (exists d rest, generate_otp m = d :: rest /\ (49 <= d <= 57)%N).
Proof.
  intros Hm. pose proof (otp_number_range m Hm) as Hr.
  unfold generate_otp.
  rewrite toString_six_digits by lia.
  split; [reflexivity|]. split.
  - repeat (constructor; [solve_div|]). constructor.
  - eexists _, _. split; [reflexivity|]. solve_div.
Qed.

(** C4, as the code has it. For every value [Math.random()] can return, the
    code [sendOtp] generates is the decimal form of an integer between 100000
    and 999999: a string of exactly six decimal digits whose first digit is
    never 0. There is no zero-padding. This string is the code of the row
    [sendOtp] adds to [otp_verifications]. *)
Theorem generated_otp_range (env : SendEnv) (email : jsstring) (w : World) :
  0 <= random_otp env <= Float64.below_one ->
  let otp := generate_otp (random_otp env) in
  100000 <= otp_number (random_otp env) <= 999999
  /\ length otp = 6%nat
  /\ Forall (fun c => (48 <= c <= 57)%N) otp
  /\ (exists d rest, otp = d :: rest /\ (49 <= d <= 57)%N)
  /\ (forall r, In r (otp_verifications (fst (sendOtp env email w))) ->
                In r (otp_verifications w) \/ otp_code r = otp).
Proof.
  intros Hm. cbv zeta.
  split; [apply otp_number_range, Hm|].
  destruct (generate_otp_digits (random_otp env) Hm) as (Hlen & Hdigits & Hhead).
  split; [exact Hlen|]. split; [exact Hdigits|]. split; [exact Hhead|].
  intros r Hin.
  destruct (sendOtp_rows env email w) as [Heq|[Heq _]]; rewrite Heq in Hin.
  - apply in_app_or in Hin as [Hin|[<-|[]]]; [left; exact Hin|right; reflexivity].
  - left. exact Hin.
Qed.

Lemma generated_otp_range_witness :
  generate_otp (2 ^ 1073) = lit "550000"
  /\ otp_code <$> otp_verifications
                    (fst (sendOtp AuthScenario.undelivered_request
                            AuthScenario.alice AuthScenario.empty_world))
     = [lit "550000"]
  /\ (exists d rest, generate_otp (2 ^ 1073) = d :: rest /\ (49 <= d <= 57)%N).
Proof.
  assert (H : 0 <= random_otp AuthScenario.undelivered_request <= Float64.below_one)
    by (unfold Float64.below_one; cbn; lia).
  split; [vm_compute; reflexivity|]. split; [vm_compute; reflexivity|].
  exact (proj1 (proj2 (proj2 (proj2
           (generated_otp_range AuthScenario.undelivered_request
              AuthScenario.alice AuthScenario.empty_world H))))).
Defined.

(** C4 fails as stated: no value of [Math.random()] makes the generated code
    begin with the digit 0. *)
Lemma generated_otp_counterexample :
  ~ (exists m, 0 <= m <= Float64.below_one
               /\ head (generate_otp m) = Some 48%N).
Proof.
  intros (m & Hm & Hhead).
  destruct (generate_otp_digits m Hm) as (_ & _ & d & rest & Heq & Hd).
  rewrite Heq in Hhead. cbn in Hhead. injection Hhead as ->. lia.
Qed.

Example generate_otp_least : generate_otp 0 = lit "100000".
Proof. vm_compute. reflexivity. Qed.

Example generate_otp_greatest : generate_otp Float64.below_one = lit "999999".
Proof. vm_compute. reflexivity. Qed.

(** A quarter, [2^-2], and the least positive double. *)
Example generate_otp_quarter : generate_otp (2 ^ 1072) = lit "325000".
Proof. vm_compute. reflexivity. Qed.

Example generate_otp_tiny : generate_otp 1 = lit "100000".
Proof. vm_compute. reflexivity. Qed.

End Otp.

(** ** The OTP handshake *)

Section Handshake.
Import Js Auth VerifyOtp AuthScenario.
Local Open Scope Z_scope.

Lemma most_recent_acc (rows : list OtpRow) (b : OtpRow) :
  exists r,
    foldl (fun best r =>
             match best with
             | None => Some r
             | Some b => if otp_created_at b <? otp_created_at r then Some r else Some b
             end) (Some b) rows = Some r
    /\ (r = b \/ In r rows).
Proof.
  revert b. induction rows as [|x rows IH]; intros b; simpl.
  - exists b. auto.
  - destruct (otp_created_at b <? otp_created_at x).
    + destruct (IH x) as (r & Hr & Hin). exists r.
      split; [exact Hr|]. right. destruct Hin as [Heq|Hin]; [left|right]; auto.
    + destruct (IH b) as (r & Hr & Hin). exists r.
      split; [exact Hr|]. destruct Hin as [Heq|Hin]; [left|right; right]; auto.
Qed.

(** The query finds a row as soon as one row passes the filters. *)
Lemma most_recent_Some (rows : list OtpRow) :
  rows <> [] -> exists r, most_recent rows = Some r /\ In r rows.
Proof.
  destruct rows as [|x rows]; [congruence|]. intros _.
  unfold most_recent. simpl.
  destruct (most_recent_acc rows x) as (r & Hr & Hin). exists r.
  split; [exact Hr|]. destruct Hin as [Heq|Hin]; [left|right]; auto.
Qed.

Lemma select_otp_Some (env : VerifyEnv) (email otp : jsstring) (w : World) (r : OtpRow) :
  otp_select_ok env = true ->
  In r (otp_verifications w) -> otp_matches email otp (now env) r = true ->
  exists otpData, select_otp env email otp w = Some otpData
                  /\ In otpData (otp_verifications w)
                  /\ otp_matches email otp (now env) otpData = true.
Proof.
  intros Hok Hin Hm. unfold select_otp. rewrite Hok.
  destruct (most_recent_Some
              (List.filter (otp_matches email otp (now env)) (otp_verifications w)))
    as (d & Hd & Hind).
  - intros Hnil.
    assert (Hr : In r (List.filter (otp_matches email otp (now env))
                         (otp_verifications w)))
      by (apply filter_In; auto).
    rewrite Hnil in Hr. exact Hr.
  - exists d. apply filter_In in Hind. tauto.
Qed.

Lemma select_otp_None (env : VerifyEnv) (email otp : jsstring) (w : World) :
  (forall r, In r (otp_verifications w) -> otp_matches email otp (now env) r = false) ->
  select_otp env email otp w = None.
Proof.
  intros Hall. unfold select_otp.
  destruct (otp_select_ok env); [|reflexivity].
  replace (List.filter _ _) with (@nil OtpRow); [reflexivity|].
  symmetry. induction (otp_verifications w) as [|x l IH]; [reflexivity|].
  simpl. rewrite (Hall x) by (left; reflexivity).
  apply IH. intros r Hr. apply Hall. right. exact Hr.
Qed.

(** The handler touches [otp_verifications] only by marking the matched
    row. *)
Lemma handler_otp_verifications (env : VerifyEnv) (email otp : jsstring)
    (w : World) (otpData : OtpRow) :
  select_otp env email otp w = Some otpData ->
  otp_verifications (fst (handler env email otp w))
  = otp_verifications (mark_verified (otp_update_ok env) (otp_id otpData) w).
Proof.
  intros Hsel. unfold handler. rewrite Hsel. cbn [fst].
  destruct (find _ _); unfold updateUserById, createUser;
    repeat match goal with |- context [if ?b then _ else _] => destruct b end;
    reflexivity.
Qed.

(** A matching row makes the response the success response. *)
Lemma handler_match (env : VerifyEnv) (email otp : jsstring) (w : World)
    (r : OtpRow) :
  otp_select_ok env = true ->
  In r (otp_verifications w) -> otp_matches email otp (now env) r = true ->
  exists otpData,
    select_otp env email otp w = Some otpData
    /\ snd (handler env email otp w) = success_response.
Proof.
  intros Hok Hin Hm.
  destruct (select_otp_Some env email otp w r Hok Hin Hm) as (d & Hsel & _).
  exists d. split; [exact Hsel|].
  unfold handler. rewrite Hsel. reflexivity.
Qed.

(** C8. Once the query has matched an [OtpRecord], the response is the
    success response, whatever becomes of marking the record, of reading the
    credential and of updating or creating the account: the handler does not
    look at those outcomes. When all of these steps fail, nothing has been
    written and the response is still the success response. *)
Theorem verify_reports_success (env : VerifyEnv) (email otp : jsstring)
    (w : World) (r : OtpRow) :
  otp_select_ok env = true ->
  In r (otp_verifications w) -> otp_matches email otp (now env) r = true ->
  snd (handler env email otp w) = success_response
  /\ (otp_update_ok env = false -> update_user_ok env = false ->
      create_user_ok env = false ->
      fst (handler env email otp w) = w).
Proof.
  intros Hok Hin Hm.
  destruct (handler_match env email otp w r Hok Hin Hm) as (d & Hsel & Hresp).
  split; [exact Hresp|].
  unfold handler. rewrite Hsel.
  intros -> -> ->. cbn [fst mark_verified].
  destruct (find _ _); reflexivity.
Qed.

Example one_code_world_rows :
  otp_verifications one_code_world
  = [{| otp_id := lit "otp-1"; otp_email := alice; otp_code := lit "100000";
        otp_password := Some (lit "k3v9q0zt81mxw4c7p2hd5b6n");
        otp_expires_at := 600000; otp_verified := false; otp_created_at := 0 |}]
  /\ user_credentials one_code_world
     = [{| cred_email := alice;
           cred_password_hash := lit "k3v9q0zt81mxw4c7p2hd5b6n" |}]
  /\ sent_emails one_code_world = [(alice, lit "100000")].
Proof. repeat split; reflexivity. Qed.

Lemma verify_reports_success_witness :
  snd (handler (verify_failing_at 1000) alice (lit "100000") one_code_world)
  = success_response
  /\ fst (handler (verify_failing_at 1000) alice (lit "100000") one_code_world)
     = one_code_world.
Proof.
  destruct (verify_reports_success (verify_failing_at 1000) alice (lit "100000")
              one_code_world
              {| otp_id := lit "otp-1"; otp_email := alice; otp_code := lit "100000";
                 otp_password := Some (lit "k3v9q0zt81mxw4c7p2hd5b6n");
                 otp_expires_at := 600000; otp_verified := false;
                 otp_created_at := 0 |})
    as [Hresp Hworld].
  - reflexivity.
  - left. reflexivity.
  - reflexivity.
  - split; [exact Hresp|]. apply Hworld; reflexivity.
Defined.

(** *** A failed dispatch leaves the code behind *)

Lemma new_otp_row_matches (env : SendEnv) (email otp password : jsstring) (t : Z) :
  t < date_now env + 10 * 60 * 1000 ->
  otp_matches email otp t (new_otp_row env email otp password) = true.
Proof.
  intros Ht. unfold otp_matches, new_otp_row. cbn.
  rewrite !bool_decide_eq_true_2 by reflexivity. cbn.
  apply Z.ltb_lt. lia.
Qed.

(** When the error [sendOtp] returns is the one of the dispatch, both
    inserts have gone through and nothing was sent. *)
Lemma sendOtp_undelivered (env : SendEnv) (email : jsstring) (w : World) :
  let existingCred := select_credential (Auth.cred_select_ok env) email w in
  let password := password_or existingCred (random_password env) in
  let row := new_otp_row env email (generate_otp (random_otp env)) password in
  let cred := {| cred_email := email; cred_password_hash := password |} in
  let w' := fst (sendOtp env email w) in
  snd (sendOtp env email w) = Throw FunctionsError ->
  otp_verifications w' = otp_verifications w ++ [row]
  /\ user_credentials w'
     = match existingCred with
       | None => user_credentials w ++ [cred]
       | Some _ => user_credentials w
       end
  /\ sent_emails w' = sent_emails w.
Proof. cbv zeta. run_sendOtp; intros H; try discriminate H; auto. Qed.

(** C9. [sendOtp] writes the [OtpRecord], and for an address without a
    credential the [CredentialRecord], before it dispatches the email. When
    the dispatch fails, [sendOtp] returns that error, the rows stay in their
    tables, nothing has been sent, and the code still verifies until it
    expires. *)
Theorem sendOtp_dispatch_failure (env : SendEnv) (email : jsstring) (w : World) :
  let otp := generate_otp (random_otp env) in
  let existingCred := select_credential (Auth.cred_select_ok env) email w in
  let password := password_or existingCred (random_password env) in
  let w' := fst (sendOtp env email w) in
  snd (sendOtp env email w) = Throw FunctionsError ->
  otp_verifications w'
  = otp_verifications w ++ [new_otp_row env email otp password]
  /\ (existingCred = None ->
      user_credentials w'
      = user_credentials w ++ [{| cred_email := email;
                                  cred_password_hash := password |}])
  /\ sent_emails w' = sent_emails w
  /\ (forall venv : VerifyEnv,
        otp_select_ok venv = true -> now venv < date_now env + 10 * 60 * 1000 ->
        snd (handler venv email otp w') = success_response).
Proof.
  cbv zeta. intros Hfail.
  destruct (sendOtp_undelivered env email w Hfail) as (Hotp & Hcred & Hsent).
  split; [exact Hotp|]. split.
  { intros Hnone. rewrite Hnone in Hcred. rewrite Hnone. exact Hcred. }
  split; [exact Hsent|].
  intros venv Hok Hnow.
  edestruct (handler_match venv email) as (d & _ & Hresp);
    [exact Hok| | |exact Hresp].
  - rewrite Hotp. apply in_or_app. right. left. reflexivity.
  - apply new_otp_row_matches, Hnow.
Qed.

Lemma sendOtp_dispatch_failure_witness :
  snd (sendOtp undelivered_request alice empty_world) = Throw FunctionsError
  /\ otp_code <$> otp_verifications (fst (sendOtp undelivered_request alice empty_world))
     = [lit "550000"]
  /\ sent_emails (fst (sendOtp undelivered_request alice empty_world)) = []
  /\ snd (handler (verify_at 599999) alice (lit "550000")
            (fst (sendOtp undelivered_request alice empty_world)))
     = success_response.
Proof.
  assert (H : snd (sendOtp undelivered_request alice empty_world)
              = Throw FunctionsError) by reflexivity.
  destruct (sendOtp_dispatch_failure undelivered_request alice empty_world H)
    as (Hotp & _ & Hsent & Hverify).
  split; [exact H|]. split; [rewrite Hotp; reflexivity|].
  split; [exact Hsent|].
  apply (Hverify (verify_at 599999)); [reflexivity|].
  reflexivity.
Defined.

(** *** Expiry and single use *)

Lemma otp_matches_true (email otp : jsstring) (t : Z) (r : OtpRow) :
  otp_matches email otp t r = true
  <-> otp_email r = email /\ otp_code r = otp /\ otp_verified r = false
      /\ t < otp_expires_at r.
Proof.
  unfold otp_matches.
  rewrite !andb_true_iff, !bool_decide_eq_true, negb_true_iff, Z.ltb_lt. tauto.
Qed.

Lemma otp_matches_earlier (email otp : jsstring) (t1 t2 : Z) (r : OtpRow) :
  t1 <= t2 -> otp_matches email otp t2 r = true -> otp_matches email otp t1 r = true.
Proof. rewrite !otp_matches_true. intros Ht (? & ? & ? & ?). repeat split; auto; lia. Qed.

Lemma handler_no_match (env : VerifyEnv) (email otp : jsstring) (w : World) :
  (forall r, In r (otp_verifications w) -> otp_matches email otp (now env) r = false) ->
  handler env email otp w = (w, invalid_otp_response).
Proof.
  intros Hall. unfold handler. rewrite (select_otp_None env email otp w Hall).
  reflexivity.
Qed.

(** C5, as the code has it. [sendOtp] persists its [OtpRecord] with
    [expires_at] ten minutes after the time of the request and with
    [verified = false] (unless the insert itself is refused). A verification
    made strictly after the expiry of a record, with the email and the code
    of that record, fails with "Invalid or expired OTP" and changes nothing,
    provided no other unverified and unexpired record holds the same email
    and code. *)
Theorem otp_expiry (env : SendEnv) (email : jsstring) (w : World)
    (venv : VerifyEnv) (wv : World) (r : OtpRow) :
  let existingCred := select_credential (Auth.cred_select_ok env) email w in
  let password := password_or existingCred (random_password env) in
  let row := new_otp_row env email (generate_otp (random_otp env)) password in
  (otp_expires_at row = date_now env + 10 * 60 * 1000
   /\ otp_verified row = false
   /\ (otp_verifications (fst (sendOtp env email w)) = otp_verifications w ++ [row]
       \/ (fst (sendOtp env email w) = w
           /\ snd (sendOtp env email w) = Throw PostgrestError)))
  /\ (In r (otp_verifications wv) ->
      otp_expires_at r < now venv ->
      (forall r', In r' (otp_verifications wv) -> r' <> r ->
                  ~ (otp_email r' = otp_email r /\ otp_code r' = otp_code r
                     /\ otp_verified r' = false /\ now venv < otp_expires_at r')) ->
      handler venv (otp_email r) (otp_code r) wv = (wv, invalid_otp_response)).
Proof.
  cbv zeta. split.
  - split; [reflexivity|]. split; [reflexivity|]. apply sendOtp_rows.
  - intros Hin Hexp Hothers. apply handler_no_match. intros r' Hin'.
    destruct (otp_matches _ _ _ r') eqn:Hm; [exfalso|reflexivity].
    apply otp_matches_true in Hm.
    assert (Hne : r' <> r) by (intros ->; lia).
    exact (Hothers r' Hin' Hne Hm).
Qed.

Lemma otp_expiry_witness :
  handler (verify_at 600001) alice (lit "100000") one_code_world
  = (one_code_world, invalid_otp_response).
Proof.
  apply (proj2 (otp_expiry first_request alice empty_world (verify_at 600001)
                  one_code_world
                  {| otp_id := lit "otp-1"; otp_email := alice;
                     otp_code := lit "100000";
                     otp_password := Some (lit "k3v9q0zt81mxw4c7p2hd5b6n");
                     otp_expires_at := 600000; otp_verified := false;
                     otp_created_at := 0 |})).
  - left. reflexivity.
  - reflexivity.
  - intros r' [<-|[]] Hne. contradiction.
Defined.

(** C5 fails as stated. Two requests for one address can draw the same code:
    after the first of the two records has expired, a verification with its
    email and its code still succeeds, through the second record. *)
Lemma otp_expiry_counterexample :
  ~ (forall (w : World) (r : OtpRow) (venv : VerifyEnv),
       In r (otp_verifications w) -> otp_expires_at r < now venv ->
       snd (handler venv (otp_email r) (otp_code r) w) = invalid_otp_response).
Proof.
  intros Hclaim.
  specialize (Hclaim two_codes_world
                {| otp_id := lit "otp-1"; otp_email := alice;
                   otp_code := lit "100000";
                   otp_password := Some (lit "k3v9q0zt81mxw4c7p2hd5b6n");
                   otp_expires_at := 600000; otp_verified := false;
                   otp_created_at := 0 |}
                (verify_at 700000)).
  assert (Hresp : snd (handler (verify_at 700000) alice (lit "100000") two_codes_world)
                  = success_response) by reflexivity.
  cbn [otp_email otp_code] in Hclaim.
  rewrite Hresp in Hclaim.
  discriminate Hclaim; [left; reflexivity | reflexivity].
Qed.

Lemma mark_verified_no_match (email otp : jsstring) (t1 t2 : Z) (id : jsstring)
    (w : World) :
  t1 <= t2 ->
  (forall r, In r (otp_verifications w) -> otp_matches email otp t1 r = true ->
             otp_id r = id) ->
  forall r, In r (otp_verifications (mark_verified true id w)) ->
            otp_matches email otp t2 r = false.
Proof.
  intros Ht Hone r Hin. cbn in Hin.
  apply in_map_iff in Hin as (x & <- & Hx).
  case_bool_decide as Hid.
  - unfold otp_matches, set_verified. cbn.
    rewrite andb_false_r. reflexivity.
  - destruct (otp_matches email otp t2 x) eqn:Hm; [exfalso|reflexivity].
    apply Hid, (Hone x Hx), (otp_matches_earlier email otp t1 t2 x Ht Hm).
Qed.

(** C6, as the code has it. For an email and a code that one unverified and
    unexpired record matches, and no record under another key, two
    verifications in sequence with that email and code succeed the first time
    and fail with "Invalid or expired OTP" the second time, provided the
    update that marks the record [verified] goes through. *)
Theorem otp_single_use (env1 env2 : VerifyEnv) (email otp : jsstring)
    (w : World) (r : OtpRow) :
  otp_select_ok env1 = true -> otp_update_ok env1 = true ->
  now env1 <= now env2 ->
  In r (otp_verifications w) -> otp_matches email otp (now env1) r = true ->
  (forall r', In r' (otp_verifications w) ->
              otp_matches email otp (now env1) r' = true -> otp_id r' = otp_id r) ->
  snd (handler env1 email otp w) = success_response
  /\ snd (handler env2 email otp (fst (handler env1 email otp w)))
     = invalid_otp_response.
Proof.
  intros Hsel Hupd Hnow Hin Hm Hone.
  split.
  { destruct (handler_match env1 email otp w r Hsel Hin Hm) as (d & _ & Hresp).
    exact Hresp. }
  destruct (select_otp_Some env1 email otp w r Hsel Hin Hm) as (d & Hd & Hind & Hmd).
  rewrite handler_no_match; [reflexivity|].
  rewrite (handler_otp_verifications env1 email otp w d Hd), Hupd.
  rewrite (Hone d Hind Hmd).
  apply (mark_verified_no_match email otp (now env1) (now env2)); assumption.
Qed.

Lemma otp_single_use_witness :
  snd (handler (verify_at 1000) alice (lit "100000") one_code_world)
  = success_response
  /\ snd (handler (verify_at 2000) alice (lit "100000")
            (fst (handler (verify_at 1000) alice (lit "100000") one_code_world)))
     = invalid_otp_response.
Proof.
  apply (otp_single_use (verify_at 1000) (verify_at 2000) alice (lit "100000")
           one_code_world
           {| otp_id := lit "otp-1"; otp_email := alice; otp_code := lit "100000";
              otp_password := Some (lit "k3v9q0zt81mxw4c7p2hd5b6n");
              otp_expires_at := 600000; otp_verified := false;
              otp_created_at := 0 |}).
  - reflexivity.
  - reflexivity.
  - cbn. lia.
  - left. reflexivity.
  - reflexivity.
  - intros r' [<-|[]] _. reflexivity.
Defined.

(** C6 fails as stated. When two requests for one address have drawn the same
    code, the first verification marks the later record only, and a second
    verification with the same email and code succeeds again, through the
    earlier record. Every call to the backend goes through in this run. *)
Lemma otp_single_use_counterexample :
  ~ (forall (w : World) (r : OtpRow) (email otp : jsstring) (t1 t2 : Z),
       t1 <= t2 ->
       In r (otp_verifications w) -> otp_matches email otp t1 r = true ->
       snd (handler (verify_at t1) email otp w) = success_response
       /\ snd (handler (verify_at t2) email otp
                 (fst (handler (verify_at t1) email otp w)))
          = invalid_otp_response).
Proof.
  intros Hclaim.
  destruct (Hclaim two_codes_world
              {| otp_id := lit "otp-1"; otp_email := alice;
                 otp_code := lit "100000";
                 otp_password := Some (lit "k3v9q0zt81mxw4c7p2hd5b6n");
                 otp_expires_at := 600000; otp_verified := false;
                 otp_created_at := 0 |}
              alice (lit "100000") 400000 400001) as [_ Hsecond].
  - lia.
  - left. reflexivity.
  - reflexivity.
  - vm_compute in Hsecond. discriminate Hsecond.
Qed.

Example two_codes_world_rows :
  map (fun r => (otp_id r, otp_code r, otp_expires_at r, otp_verified r))
    (otp_verifications two_codes_world)
  = [(lit "otp-1", lit "100000", 600000, false);
     (lit "otp-2", lit "100000", 900000, false)].
Proof. reflexivity. Qed.

Example two_codes_after_first_verification :
  map (fun r => (otp_id r, otp_verified r))
    (otp_verifications
       (fst (handler (verify_at 400000) alice (lit "100000") two_codes_world)))
  = [(lit "otp-1", false); (lit "otp-2", true)].
Proof. reflexivity. Qed.

End Handshake.

(** ** Upload and download *)

(** The stand-in cipher meets the laws. *)
Section SampleCipherLaws.
Import Encryption SampleCipher.

Lemma tag_length (key iv : list byte) : length (tag key iv) = 16%nat.
Proof.
  unfold tag. rewrite length_take, !length_app, length_replicate. lia.
Qed.

Lemma cipher_correct : AesGcmCorrect cipher.
Proof.
  split.
  - intros key iv p _ _. cbn. unfold decrypt, encrypt.
    rewrite length_app, length_rev, tag_length.
    replace (length p + 16 - 16)%nat with (length (rev p))
      by (rewrite length_rev; lia).
    rewrite drop_app_length, take_app_length.
    rewrite bool_decide_eq_true_2 by reflexivity.
    destruct (Nat.leb_spec 16 (length p + 16)) as [_|Hlt]; [|lia].
    cbn. f_equal. apply rev_involutive.
  - intros key iv p. cbn. unfold encrypt.
    rewrite length_app, length_rev, tag_length. reflexivity.
Qed.

End SampleCipherLaws.

Section Files.
Import Js Encryption Backend FileUpload FileList.
Context `{C : AesGcm}.

(** What the [try] block has written when it completes. *)
Lemma uploadFile_try_Ok (env : UploadEnv) (f : File) (u : User) (w w' : World) :
  uploadFile_try env f u w = (w', Ok tt) ->
  storage w' = <[upload_path env f u :=
                   gcm_encrypt (getRandomValues (key_entropy env) 32)
                     (generateIV (iv_entropy env)) (data f)]> (storage w)
  /\ files w' = files w ++ [upload_record env f u].
Proof.
  unfold uploadFile_try, encryptFile, lift, storage_upload, files_insert,
    mbind, io_mbind, io_bind.
  rewrite arrayBufferToBase64_spec.
  repeat (match goal with
          | |- context [if ?b then _ else _] => destruct b
          end; try discriminate).
  intros [= <-]. split; reflexivity.
Qed.

(** A run of [uploadFile] that ends in [success] has completed its [try]
    block. *)
Lemma uploadFile_success (env : UploadEnv) (f : File) (u : User) (c : Component)
    (w : World) :
  selectedFile c = Some f ->
  status (uploadStatus (fst (uploadFile env (Some u) c w))) = success ->
  uploadFile_try env f u w = (snd (uploadFile env (Some u) c w), Ok tt).
Proof.
  intros Hsel. unfold uploadFile. rewrite Hsel.
  destruct (uploadFile_try env f u w) as [w' [[]|e]]; cbn; [reflexivity|discriminate].
Qed.

Lemma getRandomValues_length (entropy : nat -> byte) (n : nat) :
  length (getRandomValues entropy n) = n.
Proof. unfold getRandomValues. rewrite length_fmap, length_seq. reflexivity. Qed.

Lemma hex_of_byte_lowercase (b : byte) :
  forallb (fun c => (48 <=? c) && (c <=? 57) || (97 <=? c) && (c <=? 102))
    (hex_of_byte b) = true.
Proof. destruct b; reflexivity. Qed.

(** [uint8ArrayToHex] writes lowercase hexadecimal digits. *)
Lemma uint8ArrayToHex_lowercase (x : list byte) :
  Forall (fun c => 48 <= c <= 57 \/ 97 <= c <= 102) (uint8ArrayToHex x).
Proof.
  induction x as [|b x IH]; [constructor|].
  rewrite uint8ArrayToHex_cons. apply Forall_app. split; [|exact IH].
  apply Forall_forall. intros c Hc.
  pose proof (hex_of_byte_lowercase b) as Hb.
  rewrite forallb_forall in Hb. specialize (Hb c (proj1 (list_elem_of_In _ _) Hc)).
  apply orb_true_iff in Hb as [Hb|Hb]; apply andb_true_iff in Hb as [H1 H2];
    apply N.leb_le in H1, H2; [left|right]; split; assumption.
Qed.

Context {L : AesGcmCorrect C}.

(** The download of a record that an upload has just written. *)
Lemma downloadFile_upload_record (env : UploadEnv) (f : File) (u : User)
    (w w' : World) :
  uploadFile_try env f u w = (w', Ok tt) ->
  downloadFile true (upload_record env f u) w'
  = Ok {| blob := data f;
          blob_type := match type f with
                       | c :: t => c :: t
                       | [] => lit "application/octet-stream"
                       end;
          download := name f |}.
Proof.
  intros Hup. apply uploadFile_try_Ok in Hup as [Hst _].
  unfold downloadFile, downloadFile_try, storage_download, lift,
    mbind, io_mbind, io_bind, mret, io_mret, io_ret.
  cbn [storage_path upload_record encrypted_key Backend.iv mime_type
       original_filename].
  rewrite Hst, lookup_insert_eq.
  rewrite base64ToArrayBuffer_encode.
  unfold importKey, exportKey, generateEncryptionKey. cbn [key_raw].
  rewrite getRandomValues_length.
  rewrite bool_decide_eq_true_2 by (repeat constructor).
  rewrite hex_roundtrip.
  unfold decryptFile. cbn [key_raw].
  rewrite gcm_decrypt_encrypt
    by (unfold generateIV; apply getRandomValues_length).
  reflexivity.
Qed.

Lemma handleFileSelect_accepts (f : File) (c : Component) :
  (size f <= 50 * 1024 * 1024)%Z ->
  handleFileSelect (Some f) c
  = {| selectedFile := Some f;
       uploadStatus := {| status := idle; progress := 0 |};
       toasts := toasts c |}.
Proof.
  intros Hsize. unfold handleFileSelect.
  destruct (Z.gtb_spec (size f) (50 * 1024 * 1024)) as [Hgt|_]; [lia|reflexivity].
Qed.

(** C1. A file of at most 50 MiB is selected and uploaded; when the upload
    ends in [success], the [files] table has one more record, whose
    [encrypted_key] is the base64 text of the exported key and whose [iv] is
    the lowercase hexadecimal text of the nonce, and [downloadFile] on that
    record hands the browser exactly the bytes of the file. *)
Theorem upload_download_roundtrip (env : UploadEnv) (u : User) (f : File)
    (c : Component) (w : World) :
  file_consistent f ->
  (Z.of_nat (length (data f)) <= 50 * 1024 * 1024)%Z ->
  let c1 := handleFileSelect (Some f) c in
  let w' := snd (uploadFile env (Some u) c1 w) in
  status (uploadStatus (fst (uploadFile env (Some u) c1 w))) = success ->
  exists record,
    files w' = files w ++ [record]
    /\ arrayBufferToBase64 (exportKey (generateEncryptionKey (key_entropy env)))
       = Ok (encrypted_key record)
    /\ Backend.iv record = uint8ArrayToHex (generateIV (iv_entropy env))
    /\ Forall (fun c => 48 <= c <= 57 \/ 97 <= c <= 102) (Backend.iv record)
    /\ exists d, downloadFile true record w' = Ok d /\ blob d = data f.
Proof.
  intros Hcons Hsize. cbv zeta.
  rewrite handleFileSelect_accepts by (rewrite Hcons; exact Hsize).
  intros Hsuccess.
  apply uploadFile_success with (f := f) in Hsuccess; [|reflexivity].
  set (w' := snd (uploadFile env (Some u) _ w)) in *.
  exists (upload_record env f u).
  destruct (uploadFile_try_Ok env f u w w' Hsuccess) as [_ Hfiles].
  split; [exact Hfiles|].
  split; [apply arrayBufferToBase64_spec|].
  split; [reflexivity|].
  split; [apply uint8ArrayToHex_lowercase|].
  eexists. split; [apply (downloadFile_upload_record env f u w w' Hsuccess)|].
  reflexivity.
Qed.

(** C10. For every upload that ends in [success], the [file_size] of the
    record it has added is the number of bytes of the plaintext file, and the
    object stored under the path of the record, the output of the cipher, is
    sixteen bytes longer. *)
Theorem upload_file_size (env : UploadEnv) (u : User) (f : File)
    (c : Component) (w : World) :
  file_consistent f ->
  selectedFile c = Some f ->
  let w' := snd (uploadFile env (Some u) c w) in
  status (uploadStatus (fst (uploadFile env (Some u) c w))) = success ->
  exists record ciphertext,
    files w' = files w ++ [record]
    /\ file_size record = Z.of_nat (length (data f))
    /\ storage w' !! storage_path record = Some ciphertext
    /\ (Z.of_nat (length ciphertext) = file_size record + 16)%Z.
Proof.
  intros Hcons Hsel. cbv zeta. intros Hsuccess.
  apply uploadFile_success with (f := f) in Hsuccess; [|exact Hsel].
  set (w' := snd (uploadFile env (Some u) c w)) in *.
  destruct (uploadFile_try_Ok env f u w w' Hsuccess) as [Hst Hfiles].
  exists (upload_record env f u). eexists.
  split; [exact Hfiles|].
  split; [exact Hcons|].
  split; [rewrite Hst; apply lookup_insert_eq|].
  rewrite gcm_encrypt_length. cbn [file_size upload_record].
  rewrite Hcons. lia.
Qed.

End Files.

(** C7. A file of more than 50 MiB is turned down by [handleFileSelect] with
    the toast 'File too large'. The selection is left as it was, so a
    component without a selection stays without one, and [uploadFile] then
    returns at once: it generates no key, encrypts nothing, and leaves the
    bucket and the table alone. A file of at most 50 MiB becomes the
    selection, without a toast. *)
Theorem oversized_file_rejected `{C : Encryption.AesGcm} (f : FileUpload.File)
    (c : FileUpload.Component) :
  ((FileUpload.size f > 50 * 1024 * 1024)%Z ->
   FileUpload.handleFileSelect (Some f) c
   = {| FileUpload.selectedFile := FileUpload.selectedFile c;
        FileUpload.uploadStatus := FileUpload.uploadStatus c;
        FileUpload.toasts :=
          FileUpload.toasts c ++ [{| FileUpload.title := Js.lit "File too large";
                                     FileUpload.destructive := true |}] |}
   /\ forall env u w,
        FileUpload.uploadFile env u
          (FileUpload.handleFileSelect (Some f) FileUpload.initial) w
        = (FileUpload.handleFileSelect (Some f) FileUpload.initial, w))
  /\ ((FileUpload.size f <= 50 * 1024 * 1024)%Z ->
      FileUpload.handleFileSelect (Some f) c
      = {| FileUpload.selectedFile := Some f;
           FileUpload.uploadStatus :=
             {| FileUpload.status := FileUpload.idle; FileUpload.progress := 0 |};
           FileUpload.toasts := FileUpload.toasts c |}).
Proof.
  split.
  - intros Hsize.
    assert (Hrej : forall c0,
               FileUpload.handleFileSelect (Some f) c0
               = {| FileUpload.selectedFile := FileUpload.selectedFile c0;
                    FileUpload.uploadStatus := FileUpload.uploadStatus c0;
                    FileUpload.toasts :=
                      FileUpload.toasts c0
                      ++ [{| FileUpload.title := Js.lit "File too large";
                             FileUpload.destructive := true |}] |}).
    { intros c0. unfold FileUpload.handleFileSelect.
      destruct (Z.gtb_spec (FileUpload.size f) (50 * 1024 * 1024)) as [_|Hle];
        [reflexivity|lia]. }
    split; [apply Hrej|].
    intros env u w. rewrite Hrej. reflexivity.
  - apply handleFileSelect_accepts.
Qed.

(** *** Scenarios: a file of ten bytes, and a file of 51 MiB *)

Section Scenarios.
Import Js Encryption Backend FileUpload FileList FileScenario.
Existing Instance SampleCipher.cipher.

Example an_upload_succeeds :
  status (uploadStatus
            (fst (uploadFile an_upload (Some bob)
                    (handleFileSelect (Some ten_bytes) initial) empty_backend)))
  = success.
Proof. vm_compute. reflexivity. Qed.

Example an_upload_record :
  map (fun r => (storage_path r, file_size r, Backend.iv r))
    (files (snd (uploadFile an_upload (Some bob)
                   (handleFileSelect (Some ten_bytes) initial) empty_backend)))
  = [(lit "7d1c/6f1e2d3c.txt", 10%Z, lit "0368cd3297fc61c62b90f55a")].
Proof. vm_compute. reflexivity. Qed.

Lemma upload_download_roundtrip_witness :
  exists record,
    files (snd (uploadFile an_upload (Some bob)
                  (handleFileSelect (Some ten_bytes) initial) empty_backend))
    = [record]
    /\ exists d,
         downloadFile true record
           (snd (uploadFile an_upload (Some bob)
                   (handleFileSelect (Some ten_bytes) initial) empty_backend))
         = Ok d
         /\ blob d = [x48; x65; x6c; x6c; x6f; x2c; x20; x4a; x53; x21].
Proof.
  destruct (upload_download_roundtrip (L := cipher_correct)
              an_upload bob ten_bytes initial empty_backend)
    as (record & Hfiles & _ & _ & _ & Hdown).
  - reflexivity.
  - cbn. lia.
  - vm_compute. reflexivity.
  - exists record. split; [exact Hfiles | exact Hdown].
Defined.

Lemma upload_file_size_witness :
  exists record ciphertext,
    files (snd (uploadFile an_upload (Some bob)
                  (handleFileSelect (Some ten_bytes) initial) empty_backend))
    = [record]
    /\ file_size record = 10%Z
    /\ storage (snd (uploadFile an_upload (Some bob)
                       (handleFileSelect (Some ten_bytes) initial) empty_backend))
       !! storage_path record = Some ciphertext
    /\ Z.of_nat (length ciphertext) = 26%Z.
Proof.
  destruct (upload_file_size (L := cipher_correct)
              an_upload bob ten_bytes
              (handleFileSelect (Some ten_bytes) initial) empty_backend)
    as (record & ciphertext & Hfiles & Hsize & Hstored & Hlen).
  - reflexivity.
  - reflexivity.
  - vm_compute. reflexivity.
  - exists record, ciphertext.
    split; [exact Hfiles|]. split; [exact Hsize|]. split; [exact Hstored|].
    rewrite Hlen, Hsize. reflexivity.
Defined.

Lemma oversized_file_rejected_witness :
  toasts (handleFileSelect (Some oversized_file) initial)
  = [{| title := lit "File too large"; destructive := true |}]
  /\ uploadFile an_upload (Some bob)
       (handleFileSelect (Some oversized_file) initial) empty_backend
     = (handleFileSelect (Some oversized_file) initial, empty_backend)
  /\ selectedFile (handleFileSelect (Some ten_bytes) initial) = Some ten_bytes.
Proof.
  destruct (oversized_file_rejected oversized_file initial) as [Hbig _].
  destruct (oversized_file_rejected ten_bytes initial) as [_ Hsmall].
  assert (Hsize : (size oversized_file > 50 * 1024 * 1024)%Z)
    by (unfold oversized_file; cbn [size]; lia).
  destruct (Hbig Hsize) as [Hrej Hnoop].
  split; [rewrite Hrej; reflexivity|].
  split; [apply Hnoop|].
  rewrite Hsmall by (unfold ten_bytes; cbn [size]; lia). reflexivity.
Defined.

End Scenarios.

(** * Further properties *)

(** ** The texts of the codecs *)

(** ASCII letters of a hexadecimal text in upper case. *)
Definition hex_upper (c : N) : N :=
  if (97 <=? c) && (c <=? 102) then c - 32 else c.

Section CodecTexts.
Import Js Encryption.

(** X1. The hexadecimal text of [n] bytes has exactly [2 n] characters, each
    a digit or a lowercase letter from [a] to [f]. *)
Theorem hex_text_shape (x : list byte) :
  length (uint8ArrayToHex x) = (2 * length x)%nat
  /\ Forall (fun c => 48 <= c <= 57 \/ 97 <= c <= 102) (uint8ArrayToHex x).
Proof. split; [apply uint8ArrayToHex_length | apply uint8ArrayToHex_lowercase]. Qed.

Lemma hex_of_byte_upper_parse (b : byte) :
  ToUint8 (parseInt16 (hex_upper <$> hex_of_byte b)) = b.
Proof. destruct b; reflexivity. Qed.

Lemma substr_fmap (f : N -> N) (s : jsstring) (i n : nat) :
  substr (f <$> s) i n = f <$> substr s i n.
Proof. unfold substr. rewrite <- fmap_drop, <- fmap_take. reflexivity. Qed.

(** X2. [hexToUint8Array] reads upper case as well: the hexadecimal text of a
    byte sequence, put in upper case, decodes to the same bytes. *)
Theorem hex_decode_upper_case (x : list byte) :
  hexToUint8Array (hex_upper <$> uint8ArrayToHex x) = Ok x.
Proof.
  rewrite hexToUint8Array_spec. f_equal.
  rewrite length_fmap, uint8ArrayToHex_length.
  rewrite (Nat.mul_comm 2), Nat.div_mul by lia.
  apply list_eq. intros k.
  rewrite list_lookup_fmap.
  destruct (x !! k) as [b|] eqn:Hk.
  - rewrite lookup_seq_lt by (apply lookup_lt_Some in Hk; exact Hk).
    change (0 + k)%nat with k. cbn [fmap option_fmap option_map].
    rewrite substr_fmap, (uint8ArrayToHex_substr x k b Hk), hex_of_byte_upper_parse.
    reflexivity.
  - rewrite lookup_seq_ge by (apply lookup_ge_None in Hk; exact Hk). reflexivity.
Qed.

Lemma base64_encode_text_length (bs : list N) :
  length (base64_encode bs) = (4 * ((length bs + 2) / 3))%nat.
Proof.
  induction bs as [| a | a b | a b c l IH] using list_ind3; try reflexivity.
  cbn [base64_encode length]. rewrite IH.
  replace (S (S (S (length l))) + 2)%nat with (length l + 2 + 1 * 3)%nat by lia.
  rewrite Nat.div_add by lia. lia.
Qed.

Lemma base64_encode_alphabet (bs : list N) :
  Forall (fun b => b < 256) bs ->
  Forall (fun c => is_Some (b64_value c) \/ c = 61) (base64_encode bs).
Proof.
  intros Hbs. rewrite base64_encode_split. apply Forall_app. split.
  - apply Forall_fmap. eapply Forall_impl; [apply sextets_of_bounded, Hbs|].
    intros i Hi. left. cbn. rewrite (b64_value_char i Hi). eauto.
  - induction bs as [| a | a b | a b c l IH] using list_ind3; cbn.
    + constructor.
    + repeat constructor; right; reflexivity.
    + repeat constructor; right; reflexivity.
    + apply IH. inversion_clear Hbs as [|? ? _ H1].
      inversion_clear H1 as [|? ? _ H2]. inversion_clear H2 as [|? ? _ H3].
      exact H3.
Qed.

(** X3. [arrayBufferToBase64] never throws; the text of [n] bytes has
    [4 * ceil (n / 3)] characters, each of the base64 alphabet or [=]. *)
Theorem base64_text_shape (x : list byte) :
  exists text,
    arrayBufferToBase64 x = Ok text
    /\ length text = (4 * ((length x + 2) / 3))%nat
    /\ Forall (fun c => is_Some (b64_value c) \/ c = 61) text.
Proof.
  exists (base64_encode (Byte.to_N <$> x)).
  split; [apply arrayBufferToBase64_spec|]. split.
  - rewrite base64_encode_text_length, length_fmap. reflexivity.
  - apply base64_encode_alphabet, byte_values_bounded.
Qed.

Lemma filter_filter_same {A} (f : A -> bool) (l : list A) :
  List.filter f (List.filter f l) = List.filter f l.
Proof.
  induction l as [|a l IH]; [reflexivity|]. cbn.
  destruct (f a) eqn:Hfa; cbn; rewrite ?Hfa, IH; reflexivity.
Qed.

(** [atob] sees its argument without the ASCII whitespace. *)
Lemma atob_ignores_whitespace (s : jsstring) :
  atob s = atob (List.filter (fun c => negb (is_ascii_whitespace c)) s).
Proof. unfold atob. rewrite filter_filter_same. reflexivity. Qed.

Lemma fmap_b64_char_no_whitespace (sx : list N) :
  List.filter (fun c => negb (is_ascii_whitespace c)) (b64_char <$> sx)
  = b64_char <$> sx.
Proof.
  induction sx as [|i sx IH]; [reflexivity|]. cbn.
  rewrite b64_char_not_whitespace. cbn. rewrite IH. reflexivity.
Qed.

Lemma strip_padding_unpadded (sx : list N) :
  strip_padding (b64_char <$> sx) = b64_char <$> sx.
Proof.
  unfold strip_padding. destruct (_ =? 0)%nat; [|reflexivity].
  pose proof (rev_fmap_b64_char_head sx) as Hhd.
  destruct (rev (b64_char <$> sx)) as [|c1 r1]; [reflexivity|].
  rewrite Hhd. reflexivity.
Qed.

Lemma base64_encode_unpadded (bs : list N) :
  List.filter (fun c => negb (c =? 61)) (base64_encode bs)
  = b64_char <$> sextets_of bs.
Proof.
  induction bs as [| a | a b | a b c l IH] using list_ind3;
    cbn [base64_encode sextets_of List.filter fmap list_fmap];
    rewrite ?b64_char_not_pad; cbn [negb N.eqb Pos.eqb List.filter];
    [reflexivity | reflexivity | reflexivity | rewrite IH; reflexivity].
Qed.

(** X4. [base64ToArrayBuffer] is forgiving: a string whose characters other
    than ASCII whitespace spell the base64 text of a byte sequence, with or
    without its [=] padding, decodes to that byte sequence. *)
Theorem base64_decode_forgiving (x : list byte) (s : jsstring) :
  let text := base64_encode (Byte.to_N <$> x) in
  let bare := List.filter (fun c => negb (is_ascii_whitespace c)) s in
  bare = text \/ bare = List.filter (fun c => negb (c =? 61)) text ->
  base64ToArrayBuffer s = Ok x.
Proof.
  cbv zeta. intros Hs.
  assert (Hatob : atob s = Ok (Byte.to_N <$> x)).
  { rewrite atob_ignores_whitespace. destruct Hs as [-> | ->].
    - apply atob_base64_encode, byte_values_bounded.
    - rewrite base64_encode_unpadded. unfold atob.
      rewrite fmap_b64_char_no_whitespace, strip_padding_unpadded, length_fmap.
      destruct (Nat.eqb_spec (length (sextets_of (Byte.to_N <$> x)) mod 4) 1)
        as [Heq|_]; [exfalso; exact (sextets_of_length _ Heq)|].
      rewrite mapM_fmap_Forall_Some.
      + rewrite decode_sextets_of by apply byte_values_bounded. reflexivity.
      + eapply Forall_impl; [apply sextets_of_bounded, byte_values_bounded|].
        intros i Hi. apply b64_value_char, Hi. }
  pose proof (base64ToArrayBuffer_encode x) as Hdec.
  unfold base64ToArrayBuffer in *.
  rewrite atob_base64_encode in Hdec by apply byte_values_bounded.
  rewrite Hatob. exact Hdec.
Qed.

Lemma base64_decode_forgiving_witness :
  base64ToArrayBuffer (lit " TW  E ") = Ok [x4d; x61].
Proof.
  apply (base64_decode_forgiving [x4d; x61]). right. reflexivity.
Defined.

End CodecTexts.

(** ** The codes that can be drawn *)

Section OtpCodes.
Import Js Auth.
Local Open Scope Z_scope.

(** Below [2^1094], rounding moves a number by less than [2^1041]. *)
Lemma round53_near (n : Z) :
  0 <= n < 2 ^ 1094 ->
  n - 2 ^ 1041 <= Float64.round53 n <= n + 2 ^ 1041.
Proof.
  intros Hn.
  destruct (Z.lt_ge_cases n (2 ^ 53)) as [Hlt|Hge].
  - unfold Float64.round53. destruct (Z.ltb_spec n (2 ^ 53)); lia.
  - assert (Hlo : 53 <= Z.log2 n) by (apply Z.log2_le_pow2; lia).
    assert (Hhi : Z.log2 n < 1094) by (apply Z.log2_lt_pow2; lia).
    assert (HP : 0 < 2 ^ (Z.log2 n - 52)) by (apply Z.pow_pos_nonneg; lia).
    assert (HP' : 2 ^ (Z.log2 n - 52) <= 2 ^ 1041)
      by (apply Z.pow_le_mono_r; lia).
    pose proof (round53_cases n Hge) as Hc. cbv zeta in Hc.
    assert (HP0 : 2 ^ (Z.log2 n - 52) <> 0) by lia.
    pose proof (Z.div_mod n _ HP0) as Hdm. clear HP0.
    pose proof (Z.mod_pos_bound n _ HP) as Hmod.
    revert Hc Hdm Hmod HP HP'.
    generalize (2 ^ (Z.log2 n - 52)). intros P.
    generalize (n / P) (n mod P). intros q r Hc Hdm Hmod HP HP'.
    destruct Hc as [-> | [-> Hpos]]; nia.
Qed.

(** X5. Every integer from 100000 to 999999 is the code of some value of
    [Math.random()]: a multiple [j / 2^53] of [2^-53] below 1. *)
Theorem every_code_is_drawn (c : Z) :
  100000 <= c <= 999999 ->
  exists j, 0 <= j < 2 ^ 53
            /\ 0 <= j * 2 ^ 1021 <= Float64.below_one
            /\ otp_number (j * 2 ^ 1021) = c
            /\ generate_otp (j * 2 ^ 1021) = toString 10 (Z.to_N c).
Proof.
  intros Hc.
  set (X := (2 * (c - 100000) + 1) * 2 ^ 52).
  exists (X / 900000).
  assert (HX : 0 <= X < 1800000 * 2 ^ 52) by (subst X; lia).
  pose proof (Z.div_mod X 900000 ltac:(lia)) as Hdm.
  pose proof (Z.mod_pos_bound X 900000 ltac:(lia)) as Hmod.
  revert Hdm Hmod. generalize (X / 900000) (X mod 900000). intros j r Hdm Hmod.
  assert (Hj : 0 <= j < 2 ^ 53) by lia.
  assert (Hnum : otp_number (j * 2 ^ 1021) = c).
  { unfold otp_number, Float64.floor, Float64.add, Float64.mul_int, Float64.of_int.
    rewrite Z.shiftr_div_pow2 by lia.
    pose proof (round53_near (j * 2 ^ 1021 * 900000) ltac:(lia)) as Hp.
    set (p := Float64.round53 (j * 2 ^ 1021 * 900000)) in *.
    pose proof (round53_near (100000 * 2 ^ 1074 + p) ltac:(lia)) as Hs.
    set (t := Float64.round53 (100000 * 2 ^ 1074 + p)) in *.
    symmetry. apply (Z.div_unique_pos t (2 ^ 1074) c (t - c * 2 ^ 1074)); [|lia].
    subst X. lia. }
  split; [exact Hj|]. split; [unfold Float64.below_one; lia|].
  split; [exact Hnum|].
  unfold generate_otp. rewrite Hnum. reflexivity.
Qed.

Lemma every_code_is_drawn_witness :
  exists j, 0 <= j < 2 ^ 53 /\ otp_number (j * 2 ^ 1021) = 314159.
Proof.
  destruct (every_code_is_drawn 314159) as (j & Hj & _ & Hnum & _); [lia|].
  exists j. split; [exact Hj | exact Hnum].
Defined.

End OtpCodes.

(** ** Verification and issuance *)

Section Verification.
Import Js Auth VerifyOtp AuthScenario.
Local Open Scope Z_scope.

Lemma most_recent_acc_greatest (rows : list OtpRow) (b r : OtpRow) :
  foldl (fun best r =>
           match best with
           | None => Some r
           | Some b => if otp_created_at b <? otp_created_at r then Some r else Some b
           end) (Some b) rows = Some r ->
  otp_created_at b <= otp_created_at r
  /\ forall x, In x rows -> otp_created_at x <= otp_created_at r.
Proof.
  revert b. induction rows as [|y rows IH]; intros b; simpl.
  - intros [= ->]. split; [lia|]. intros x [].
  - destruct (Z.ltb_spec (otp_created_at b) (otp_created_at y)) as [Hlt|Hge];
      intros Hr; destruct (IH _ Hr) as [H1 H2]; split; try lia;
      intros x [<-|Hx]; auto; lia.
Qed.

Lemma most_recent_greatest (rows : list OtpRow) (r : OtpRow) :
  most_recent rows = Some r ->
  In r rows /\ forall x, In x rows -> otp_created_at x <= otp_created_at r.
Proof.
  intros Hr. split.
  - destruct rows as [|y rows]; [discriminate|].
    destruct (most_recent_Some (y :: rows)) as (r' & Hr' & Hin); [discriminate|].
    congruence.
  - destruct rows as [|y rows]; [discriminate|].
    unfold most_recent in Hr. simpl in Hr.
    destruct (most_recent_acc_greatest rows y r Hr) as [H1 H2].
    intros x [<-|Hx]; auto.
Qed.

Lemma select_otp_passes (env : VerifyEnv) (email otp : jsstring) (w : World)
    (otpData : OtpRow) :
  select_otp env email otp w = Some otpData ->
  In otpData (otp_verifications w)
  /\ otp_matches email otp (now env) otpData = true.
Proof.
  unfold select_otp. destruct (otp_select_ok env); [|discriminate].
  intros Hsel. apply most_recent_greatest in Hsel as [Hin _].
  apply filter_In in Hin. exact Hin.
Qed.

(** X6. The record a verification works on passes the four filters (email,
    code, not verified, not expired) and no record that passes them was
    created later. *)
Theorem select_otp_most_recent (env : VerifyEnv) (email otp : jsstring)
    (w : World) (otpData : OtpRow) :
  select_otp env email otp w = Some otpData ->
  In otpData (otp_verifications w)
  /\ otp_email otpData = email /\ otp_code otpData = otp
  /\ otp_verified otpData = false /\ now env < otp_expires_at otpData
  /\ forall r, In r (otp_verifications w) ->
               otp_matches email otp (now env) r = true ->
               otp_created_at r <= otp_created_at otpData.
Proof.
  unfold select_otp. destruct (otp_select_ok env); [|discriminate].
  intros Hsel. apply most_recent_greatest in Hsel as [Hin Hmax].
  apply filter_In in Hin as [Hin Hm].
  split; [exact Hin|].
  apply otp_matches_true in Hm as (He & Hc & Hv & Ht).
  repeat (split; [assumption|]).
  intros r Hr Hmr. apply Hmax, filter_In. auto.
Qed.

Lemma select_otp_most_recent_witness :
  otp_id <$> select_otp (verify_at 400000) alice (lit "100000") two_codes_world
  = Some (lit "otp-2")
  /\ forall r, In r (otp_verifications two_codes_world) ->
               otp_matches alice (lit "100000") 400000 r = true ->
               otp_created_at r <= 300000.
Proof.
  destruct (select_otp (verify_at 400000) alice (lit "100000") two_codes_world)
    as [d|] eqn:Hsel; [|vm_compute in Hsel; discriminate Hsel].
  destruct (select_otp_most_recent _ _ _ _ _ Hsel) as (_ & _ & _ & _ & _ & Hmax).
  assert (Hd : d = {| otp_id := lit "otp-2"; otp_email := alice;
                      otp_code := lit "100000";
                      otp_password := Some (lit "k3v9q0zt81mxw4c7p2hd5b6n");
                      otp_expires_at := 900000; otp_verified := false;
                      otp_created_at := 300000 |}).
  { vm_compute in Hsel. injection Hsel as <-. reflexivity. }
  subst d. split; [reflexivity|]. exact Hmax.
Defined.

(** The handler leaves the credentials and the sent mail alone. *)
Lemma handler_credentials (env : VerifyEnv) (email otp : jsstring) (w : World) :
  user_credentials (fst (handler env email otp w)) = user_credentials w
  /\ sent_emails (fst (handler env email otp w)) = sent_emails w.
Proof.
  unfold handler. destruct (select_otp env email otp w); [|split; reflexivity].
  cbn [fst]. unfold mark_verified, updateUserById, createUser.
  repeat match goal with
         | |- context [if ?b then _ else _] => destruct b
         | |- context [match ?x with Some _ => _ | None => _ end] => destruct x
         end; split; reflexivity.
Qed.

(** X7. A verification writes to [otp_verifications] only by setting
    [verified] on the rows under the key of the record it selected; it never
    touches [user_credentials]; and when it answers "Invalid or expired OTP"
    it has written nothing at all, to any table or to the accounts. *)
Theorem handler_writes (env : VerifyEnv) (email otp : jsstring) (w : World) :
  let w' := fst (handler env email otp w) in
  Forall2 (fun r r' =>
             r' = r
             \/ (r' = set_verified r
                 /\ exists otpData, select_otp env email otp w = Some otpData
                                    /\ otp_id r = otp_id otpData))
    (otp_verifications w) (otp_verifications w')
  /\ user_credentials w' = user_credentials w
  /\ sent_emails w' = sent_emails w
  /\ (snd (handler env email otp w) = invalid_otp_response -> w' = w).
Proof.
  cbv zeta. split; [|split; [|split]].
  - destruct (select_otp env email otp w) as [d|] eqn:Hsel.
    + rewrite (handler_otp_verifications env email otp w d Hsel).
      unfold mark_verified. destruct (otp_update_ok env).
      * cbn [otp_verifications]. apply Forall2_fmap_r, Forall_Forall2_diag.
        apply Forall_forall. intros r _. unfold compose. cbn beta.
        destruct (decide (otp_id r = otp_id d)) as [Hid|Hid].
        -- rewrite bool_decide_eq_true_2 by exact Hid. right.
           split; [reflexivity|]. exists d. auto.
        -- rewrite bool_decide_eq_false_2 by exact Hid. left. reflexivity.
      * apply Forall_Forall2_diag, Forall_forall. intros r _. left. reflexivity.
    + unfold handler. rewrite Hsel. cbn [fst].
      apply Forall_Forall2_diag, Forall_forall. intros r _. left. reflexivity.
  - apply handler_credentials.
  - apply handler_credentials.
  - unfold handler. destruct (select_otp env email otp w); [|reflexivity].
    cbn [snd]. discriminate.
Qed.

Lemma handler_writes_witness :
  fst (handler (verify_at 700000) alice (lit "999999") two_codes_world)
  = two_codes_world.
Proof.
  apply (proj2 (proj2 (proj2
           (handler_writes (verify_at 700000) alice (lit "999999") two_codes_world)))).
  reflexivity.
Defined.

(** The rows of [otp_verifications] stay where they are through
    [sendOtp]. *)
Lemma sendOtp_keeps_rows (env : SendEnv) (email : jsstring) (w : World) (r : OtpRow) :
  In r (otp_verifications w) -> In r (otp_verifications (fst (sendOtp env email w))).
Proof.
  intros Hin. destruct (sendOtp_rows env email w) as [Heq|[Heq _]]; rewrite Heq.
  - apply in_or_app. left. exact Hin.
  - exact Hin.
Qed.

(** X8. Requesting a code invalidates nothing: an email and code that a
    verification accepts are still accepted, at the same time, after any
    further [sendOtp], for this address or another. *)
Theorem resend_keeps_codes (senv : SendEnv) (address : jsstring)
    (venv : VerifyEnv) (email otp : jsstring) (w : World) :
  snd (handler venv email otp w) = success_response ->
  snd (handler venv email otp (fst (sendOtp senv address w))) = success_response.
Proof.
  intros Hok.
  destruct (select_otp venv email otp w) as [d|] eqn:Hsel.
  - destruct (select_otp_passes venv email otp w d Hsel) as [Hin Hm].
    assert (Hflag : otp_select_ok venv = true).
    { unfold select_otp in Hsel. destruct (otp_select_ok venv); [reflexivity|discriminate]. }
    edestruct (handler_match venv email otp (fst (sendOtp senv address w)) d)
      as (d' & _ & Hresp); [exact Hflag| | |exact Hresp].
    + apply sendOtp_keeps_rows, Hin.
    + exact Hm.
  - unfold handler in Hok. rewrite Hsel in Hok. discriminate Hok.
Qed.

Lemma resend_keeps_codes_witness :
  snd (handler (verify_at 400000) alice (lit "100000")
         (fst (sendOtp second_request alice one_code_world)))
  = success_response.
Proof.
  apply (resend_keeps_codes second_request alice (verify_at 400000) alice
           (lit "100000") one_code_world).
  reflexivity.
Defined.

End Verification.

(** ** Keys, passwords and accounts *)

(** The keys of the three stores are unique: the primary key of
    [otp_verifications], the UNIQUE [email] of [user_credentials], and the
    email of the accounts. *)
Definition keys_unique (w : Auth.World) : Prop :=
  NoDup (Auth.otp_id <$> Auth.otp_verifications w)
  /\ NoDup (Auth.cred_email <$> Auth.user_credentials w)
  /\ NoDup (Auth.user_email <$> Auth.auth_users w).

Section Accounts.
Import Js Auth VerifyOtp AuthClient AuthScenario.
Local Open Scope Z_scope.

Lemma existsb_key_false {A} (f : A -> jsstring) (a : jsstring) (l : list A) :
  existsb (fun r => bool_decide (f r = a)) l = false -> a ∉ f <$> l.
Proof.
  intros Hex Hin. apply list_elem_of_fmap in Hin as (r & -> & Hr).
  assert (Htrue : existsb (fun r0 => bool_decide (f r0 = f r)) l = true).
  { apply existsb_exists. exists r. split; [apply list_elem_of_In, Hr|].
    apply bool_decide_eq_true_2. reflexivity. }
  congruence.
Qed.

Lemma NoDup_snoc_key {A} (f : A -> jsstring) (l : list A) (x : A) :
  NoDup (f <$> l) ->
  existsb (fun r => bool_decide (f r = f x)) l = false ->
  NoDup (f <$> (l ++ [x])).
Proof.
  intros Hnd Hex. rewrite fmap_app. apply NoDup_app.
  split; [exact Hnd|]. split; [|apply NoDup_singleton].
  intros a Ha Hx. apply list_elem_of_singleton in Hx as ->.
  exact (existsb_key_false f (f x) l Hex Ha).
Qed.

Lemma fmap_map_key {A} (f : A -> jsstring) (g : A -> A) (l : list A) :
  (forall r, f (g r) = f r) -> f <$> map g l = f <$> l.
Proof.
  intros Hfg. induction l as [|r l IH]; [reflexivity|].
  cbn. rewrite Hfg. f_equal. exact IH.
Qed.

Lemma insert_otp_keys (ok : bool) (row : OtpRow) (w : World) :
  keys_unique w -> keys_unique (fst (insert_otp ok row w)).
Proof.
  intros (H1 & H2 & H3). unfold insert_otp.
  destruct (ok && _) eqn:Hc; [|repeat split; assumption].
  apply andb_true_iff in Hc as [_ Hc]. apply negb_true_iff in Hc.
  repeat split; cbn; [|assumption|assumption].
  apply NoDup_snoc_key; assumption.
Qed.

Lemma insert_credential_keys (ok : bool) (row : CredRow) (w : World) :
  keys_unique w -> keys_unique (fst (insert_credential ok row w)).
Proof.
  intros (H1 & H2 & H3). unfold insert_credential.
  destruct (ok && _) eqn:Hc; [|repeat split; assumption].
  apply andb_true_iff in Hc as [_ Hc]. apply negb_true_iff in Hc.
  repeat split; cbn; [assumption| |assumption].
  apply NoDup_snoc_key; assumption.
Qed.

Lemma io_bind_preserves {W A B} (P : W -> Prop) (m : Js.io W A)
    (k : A -> Js.io W B) (w : W) :
  P w -> (forall w0, P w0 -> P (fst (m w0))) ->
  (forall a w0, P w0 -> P (fst (k a w0))) ->
  P (fst (io_bind m k w)).
Proof.
  intros Hw Hm Hk. unfold io_bind.
  specialize (Hm w Hw). destruct (m w) as [w1 [a|e]]; cbn in *.
  - apply Hk, Hm.
  - exact Hm.
Qed.

Lemma sendOtp_keys (env : SendEnv) (email : jsstring) (w : World) :
  keys_unique w -> keys_unique (fst (sendOtp env email w)).
Proof.
  intros Hw. unfold sendOtp, mbind, io_mbind.
  apply io_bind_preserves; [exact Hw | intros; apply insert_otp_keys; assumption |].
  intros _ w0 Hw0.
  apply io_bind_preserves; [exact Hw0 | |].
  - intros w1 Hw1. destruct (select_credential _ email w).
    + exact Hw1.
    + apply insert_credential_keys, Hw1.
  - intros _ w1 Hw1. unfold invoke_send_otp_email.
    destruct (email_ok env); exact Hw1.
Qed.

Lemma handler_keys (env : VerifyEnv) (email otp : jsstring) (w : World) :
  keys_unique w -> keys_unique (fst (handler env email otp w)).
Proof.
  intros (H1 & H2 & H3). unfold handler.
  destruct (select_otp env email otp w) as [d|]; [|repeat split; assumption].
  cbn [fst].
  assert (Hm : keys_unique (mark_verified (otp_update_ok env) (otp_id d) w)).
  { unfold mark_verified. destruct (otp_update_ok env); [|repeat split; assumption].
    repeat split; cbn; [|assumption|assumption].
    rewrite fmap_map_key; [assumption|].
    intros r. destruct (bool_decide _); reflexivity. }
  destruct Hm as (M1 & M2 & M3).
  destruct (find _ _) as [u|].
  - unfold updateUserById. destruct (update_user_ok env); [|repeat split; assumption].
    repeat split; cbn; [assumption|assumption|].
    rewrite fmap_map_key; [assumption|].
    intros r. destruct (bool_decide _); reflexivity.
  - unfold createUser. destruct (create_user_ok env && _) eqn:Hc;
      [|repeat split; assumption].
    apply andb_true_iff in Hc as [_ Hc]. apply negb_true_iff in Hc.
    repeat split; cbn; [assumption|assumption|].
    apply (NoDup_snoc_key user_email); assumption.
Qed.

Lemma signUp_keys (ok auto : bool) (id email password : jsstring) (w : World) :
  keys_unique w -> keys_unique (fst (signUp ok auto id email password w)).
Proof.
  intros (H1 & H2 & H3). unfold signUp.
  destruct ok; [|repeat split; assumption].
  destruct (existsb _ _) eqn:Hc; [repeat split; assumption|].
  repeat split; cbn; [assumption|assumption|].
  apply (NoDup_snoc_key user_email); assumption.
Qed.

Lemma verifyOtp_keys (env : ClientEnv) (email token : jsstring) (w : World) :
  keys_unique w -> keys_unique (fst (verifyOtp env email token w)).
Proof.
  intros Hw. unfold verifyOtp.
  destruct (invoke_ok env); [|exact Hw].
  pose proof (handler_keys (edge env) email token w Hw) as Hh.
  destruct (handler (edge env) email token w) as [w1 response]. cbn [fst] in Hh.
  destruct (reports_success response); [|exact Hh].
  set (w2 := match select_credential _ email w1 with
             | Some _ => w1
             | None => _
             end).
  assert (H2 : keys_unique w2).
  { subst w2. destruct (select_credential _ email w1); [exact Hh|].
    apply insert_credential_keys, Hh. }
  destruct (signInWithPassword (sign_in_ok env) _ _ w2); [exact H2|].
  pose proof (signUp_keys (sign_up_ok env) (autoconfirm env) (sign_up_id env) email
                (password_or (select_credential (client_cred_select_ok env) email w1)
                   (client_password env)) w2 H2) as H3.
  destruct (signUp _ _ _ _ _ w2) as [w3 [| |]]; cbn [fst] in H3;
    try exact H3; destruct (signInWithPassword _ _ _ w3); exact H3.
Qed.

(** X9. Requesting a code, the verification of the edge function and the
    client's [verifyOtp] keep the keys unique: no two [OtpRecord]s under one
    id, no two credentials and no two accounts for one email. *)
Theorem keys_stay_unique (w : World) :
  keys_unique w ->
  (forall env email, keys_unique (fst (sendOtp env email w)))
  /\ (forall env email otp, keys_unique (fst (handler env email otp w)))
  /\ (forall env email token, keys_unique (fst (verifyOtp env email token w))).
Proof.
  intros Hw. split; [|split].
  - intros. apply sendOtp_keys, Hw.
  - intros. apply handler_keys, Hw.
  - intros. apply verifyOtp_keys, Hw.
Qed.

Lemma keys_stay_unique_witness :
  keys_unique empty_world /\ keys_unique two_codes_world.
Proof.
  assert (H0 : keys_unique empty_world) by (repeat split; constructor).
  split; [exact H0|].
  unfold two_codes_world.
  apply (proj1 (keys_stay_unique one_code_world
                  (proj1 (keys_stay_unique empty_world H0) first_request alice))).
Defined.

End Accounts.

(** ** From the request to the session *)

Section Login.
Import Js Auth VerifyOtp AuthClient AuthPage AuthScenario.
Local Open Scope Z_scope.

Lemma maybeSingle_In {A} (rows : list A) (r : A) :
  maybeSingle rows = Some r -> rows = [r].
Proof. destruct rows as [|a [|b rows]]; cbn; congruence. Qed.

Lemma select_credential_In (ok : bool) (email : jsstring) (w : World) (c : CredRow) :
  select_credential ok email w = Some c ->
  In c (user_credentials w) /\ cred_email c = email.
Proof.
  unfold select_credential. destruct ok; [|discriminate].
  intros Hs. apply maybeSingle_In in Hs.
  assert (Hin : In c (List.filter (fun r => bool_decide (cred_email r = email))
                        (user_credentials w))) by (rewrite Hs; left; reflexivity).
  apply filter_In in Hin as [Hin Hb].
  apply bool_decide_eq_true in Hb. auto.
Qed.

Lemma select_credential_flag (ok : bool) (email : jsstring) (w : World) (c : CredRow) :
  select_credential ok email w = Some c -> select_credential true email w = Some c.
Proof. unfold select_credential. destruct ok; [auto|discriminate]. Qed.

Lemma select_credential_ext (ok : bool) (email : jsstring) (w1 w2 : World) :
  user_credentials w1 = user_credentials w2 ->
  select_credential ok email w1 = select_credential ok email w2.
Proof. unfold select_credential. intros ->. reflexivity. Qed.

(** X10. [sendOtp] dispatches the email only after both inserts have gone
    through: when it returns without error, the mail holds the very code of
    the row it has added and a credential for the address is stored; when it
    returns an error, no mail has been sent. *)
Theorem sendOtp_dispatch (env : SendEnv) (email : jsstring) (w : World) :
  let otp := generate_otp (random_otp env) in
  let w' := fst (sendOtp env email w) in
  (snd (sendOtp env email w) = Ok tt ->
   sent_emails w' = sent_emails w ++ [(email, otp)]
   /\ (exists row, otp_verifications w' = otp_verifications w ++ [row]
                   /\ otp_email row = email /\ otp_code row = otp)
   /\ (exists c, In c (user_credentials w') /\ cred_email c = email))
  /\ (forall e, snd (sendOtp env email w) = Throw e ->
                sent_emails w' = sent_emails w).
Proof.
  cbv zeta. split.
  - run_sendOtp; intros H; try discriminate H;
      (split; [reflexivity|]);
      (split; [eexists; split; [reflexivity|split; reflexivity]|]).
    + match goal with
      | Hs : select_credential _ _ _ = Some ?c |- _ =>
          apply select_credential_In in Hs as [? ?]; exists c; cbn; auto
      end.
    + eexists. cbn. split; [apply in_or_app; right; left; reflexivity|reflexivity].
  - intros e. run_sendOtp; intros H; try discriminate H; reflexivity.
Qed.

Lemma sendOtp_dispatch_witness :
  sent_emails one_code_world = [(alice, lit "100000")]
  /\ sent_emails (fst (sendOtp undelivered_request alice empty_world)) = [].
Proof.
  destruct (sendOtp_dispatch first_request alice empty_world) as [Hok _].
  destruct (sendOtp_dispatch undelivered_request alice empty_world) as [_ Herr].
  split.
  - destruct Hok as (Hsent & _); [reflexivity|]. exact Hsent.
  - apply (Herr FunctionsError). reflexivity.
Defined.

Lemma filter_snoc_fresh {A} (f : A -> jsstring) (a : jsstring) (l : list A) (x : A) :
  existsb (fun r => bool_decide (f r = a)) l = false -> f x = a ->
  List.filter (fun r => bool_decide (f r = a)) (l ++ [x]) = [x].
Proof.
  intros Hex Hx. rewrite List.filter_app. cbn.
  rewrite (bool_decide_eq_true_2 _ Hx).
  replace (List.filter _ l) with (@nil A); [reflexivity|].
  symmetry. induction l as [|r l IH]; [reflexivity|].
  cbn in Hex. apply orb_false_iff in Hex as [Hr Hl].
  cbn. rewrite Hr. apply IH, Hl.
Qed.

(** X11. When [sendOtp] returns without error, the password on the row it
    has added is the password of the credential stored for the address,
    provided that one is not the empty string. *)
Theorem issued_password_is_credential (env : SendEnv) (email : jsstring)
    (w : World) (c : CredRow) :
  let w' := fst (sendOtp env email w) in
  snd (sendOtp env email w) = Ok tt ->
  select_credential true email w' = Some c ->
  cred_password_hash c <> [] ->
  exists row, otp_verifications w' = otp_verifications w ++ [row]
              /\ otp_password row = Some (cred_password_hash c).
Proof.
  cbv zeta. run_sendOtp; intros H; try discriminate H; intros Hc Hne.
  - match goal with
    | Hs : select_credential _ _ _ = Some ?c0 |- _ =>
        apply select_credential_flag in Hs;
        change (select_credential true email w = Some c) in Hc;
        rewrite Hs in Hc; injection Hc as <-;
        eexists; split; [reflexivity|]; cbn;
        unfold password_or; destruct (cred_password_hash c0);
        [contradiction|reflexivity]
    end.
  - unfold select_credential in Hc. cbn [user_credentials] in Hc.
    match goal with
    | Hi : _ && negb (existsb _ (user_credentials _)) = true |- _ =>
        apply andb_true_iff in Hi as [_ Hi]; apply negb_true_iff in Hi;
        cbn [cred_email user_credentials] in Hi;
        erewrite (filter_snoc_fresh cred_email email) in Hc;
        [|exact Hi|reflexivity]
    end.
    cbn in Hc. injection Hc as <-. eexists. split; reflexivity.
Qed.

Lemma issued_password_is_credential_witness :
  exists row, otp_verifications one_code_world = [row]
              /\ otp_password row = Some (lit "k3v9q0zt81mxw4c7p2hd5b6n").
Proof.
  apply (issued_password_is_credential first_request alice empty_world
           {| cred_email := alice;
              cred_password_hash := lit "k3v9q0zt81mxw4c7p2hd5b6n" |}).
  - reflexivity.
  - reflexivity.
  - discriminate.
Defined.

Lemma find_absent {A} (f : A -> bool) (l : list A) :
  (forall x, In x l -> f x = false) -> find f l = None.
Proof.
  induction l as [|a l IH]; intros H; [reflexivity|].
  cbn. rewrite (H a) by (left; reflexivity). apply IH. intros x Hx. apply H. right. exact Hx.
Qed.

Lemma In_take {A} (n : nat) (l : list A) (x : A) : In x (take n l) -> In x l.
Proof.
  revert n. induction l as [|a l IH]; intros [|n]; cbn; try tauto.
  intros [->|H]; [left; reflexivity|right; exact (IH n H)].
Qed.



Lemma find_snoc_fresh {A} (f : A -> bool) (l : list A) (x : A) :
  (forall y, In y l -> f y = false) -> f x = true -> find f (l ++ [x]) = Some x.
Proof.
  intros Hl Hx. induction l as [|a l IH]; cbn.
  - rewrite Hx. reflexivity.
  - rewrite (Hl a) by (left; reflexivity). apply IH. intros y Hy. apply Hl. right. exact Hy.
Qed.

Lemma no_key_existsb {A} (f : A -> jsstring) (a : jsstring) (l : list A) :
  (forall x, In x l -> f x <> a) ->
  existsb (fun r => bool_decide (f r = a)) l = false.
Proof.
  intros H. induction l as [|r l IH]; [reflexivity|].
  cbn. rewrite bool_decide_eq_false_2 by (apply H; left; reflexivity).
  apply IH. intros x Hx. apply H. right. exact Hx.
Qed.

Lemma no_key_find {A} (f : A -> jsstring) (a : jsstring) (l : list A) :
  (forall x, In x l -> f x <> a) ->
  forall x, In x l -> bool_decide (f x = a) = false.
Proof. intros H x Hx. apply bool_decide_eq_false_2, H, Hx. Qed.

(** The accounts after a verification that found no account for the
    address and created one. *)
Lemma handler_creates (env : VerifyEnv) (email otp : jsstring) (w : World)
    (d : OtpRow) :
  select_otp env email otp w = Some d ->
  (forall u, In u (auth_users w) -> user_email u <> email) ->
  create_user_ok env = true ->
  auth_users (fst (handler env email otp w))
  = auth_users w
    ++ [{| user_id := new_user_id env; user_email := email;
           user_password :=
             resolve_password (select_credential (VerifyOtp.cred_select_ok env) email w) d;
           user_email_confirm := true |}].
Proof.
  intros Hsel Hnone Hcreate. unfold handler. rewrite Hsel. cbn [fst].
  set (w1 := mark_verified (otp_update_ok env) (otp_id d) w).
  assert (Hu : auth_users w1 = auth_users w)
    by (subst w1; unfold mark_verified; destruct (otp_update_ok env); reflexivity).
  assert (Hc : user_credentials w1 = user_credentials w)
    by (subst w1; unfold mark_verified; destruct (otp_update_ok env); reflexivity).
  rewrite (select_credential_ext _ email w1 w Hc).
  rewrite find_absent.
  - unfold createUser. rewrite Hcreate, Hu.
    rewrite (no_key_existsb user_email email _ Hnone). reflexivity.
  - intros u Hin. apply (no_key_find user_email email (auth_users w) Hnone).
    unfold listUsers in Hin. destruct (list_users_ok env); [|destruct Hin].
    rewrite Hu in Hin. exact (In_take _ _ _ Hin).
Qed.

Lemma handler_creates_account (env : VerifyEnv) (email otp : jsstring)
    (w : World) (otpData : OtpRow) :
  select_otp env email otp w = Some otpData ->
  (forall u, In u (auth_users w) -> user_email u <> email) ->
  create_user_ok env = true ->
  find (fun u => bool_decide (user_email u = email))
    (auth_users (fst (handler env email otp w)))
  = Some {| user_id := new_user_id env; user_email := email;
            user_password :=
              resolve_password
                (select_credential (VerifyOtp.cred_select_ok env) email w) otpData;
            user_email_confirm := true |}.
Proof.
  intros Hsel Hnone Hcreate.
  rewrite (handler_creates env email otp w otpData Hsel Hnone Hcreate).
  apply find_snoc_fresh.
  - apply (no_key_find user_email email _ Hnone).
  - apply bool_decide_eq_true_2. reflexivity.
Qed.



(** The stores after a first request for an address that went through. *)
Lemma sendOtp_first_time (env : SendEnv) (email : jsstring) (w : World) :
  (forall c, In c (user_credentials w) -> cred_email c <> email) ->
  snd (sendOtp env email w) = Ok tt ->
  fst (sendOtp env email w)
  = {| otp_verifications :=
         otp_verifications w
         ++ [new_otp_row env email (generate_otp (random_otp env)) (random_password env)];
       user_credentials :=
         user_credentials w
         ++ [{| cred_email := email; cred_password_hash := random_password env |}];
       auth_users := auth_users w;
       sent_emails := sent_emails w ++ [(email, generate_otp (random_otp env))] |}.
Proof.
  intros Hnone. run_sendOtp; intros H; try discriminate H.
  - match goal with
    | Hs : select_credential _ _ _ = Some ?c |- _ =>
        apply select_credential_In in Hs as [Hin He];
        destruct (Hnone c Hin He)
    end.
  - reflexivity.
Qed.

(** X13. The first login of an address. When the address has neither a
    credential nor an account, [sendOtp] has gone through with a non-empty
    password, and the code it generated is submitted before it expires,
    then [verifyOtp] returns a session for the address, on the account the
    edge function has just created (given that the calls on the way go
    through: the invocation, the OTP query, the two credential queries, the
    account creation and the sign-in). *)
Theorem first_login (senv : SendEnv) (cenv : ClientEnv) (email : jsstring)
    (w : World) :
  (forall c, In c (user_credentials w) -> cred_email c <> email) ->
  (forall u, In u (auth_users w) -> user_email u <> email) ->
  random_password senv <> [] ->
  snd (sendOtp senv email w) = Ok tt ->
  invoke_ok cenv = true -> otp_select_ok (edge cenv) = true ->
  VerifyOtp.cred_select_ok (edge cenv) = true -> create_user_ok (edge cenv) = true ->
  client_cred_select_ok cenv = true -> sign_in_ok cenv = true ->
  now (edge cenv) < date_now senv + 10 * 60 * 1000 ->
  snd (verifyOtp cenv email (generate_otp (random_otp senv))
         (fst (sendOtp senv email w)))
  = inr {| session_user := new_user_id (edge cenv); session_email := email |}.
Proof.
  intros Hcred Huser Hpw Hsent Hinv Hsel Hcs Hcreate Hccs Hsign Hnow.
  rewrite (sendOtp_first_time senv email w Hcred Hsent).
  set (otp := generate_otp (random_otp senv)).
  set (cred := {| cred_email := email; cred_password_hash := random_password senv |}).
  set (w1 := {| otp_verifications := _; user_credentials := _;
                auth_users := _; sent_emails := _ |}).
  assert (Hsc : forall w0, user_credentials w0 = user_credentials w1 ->
                           select_credential true email w0 = Some cred).
  { intros w0 Hw0. unfold select_credential. rewrite Hw0.
    subst w1. cbn [user_credentials].
    erewrite (filter_snoc_fresh cred_email email);
      [reflexivity | apply no_key_existsb, Hcred | reflexivity]. }
  assert (Hpo : password_or (Some cred) (client_password cenv) = random_password senv).
  { unfold password_or. subst cred. cbn.
    destruct (random_password senv); [contradiction|reflexivity]. }
  destruct (handler_match (edge cenv) email otp w1
              (new_otp_row senv email otp (random_password senv)))
    as (d & Hd & Hresp); [exact Hsel | | |].
  { subst w1. cbn. apply in_or_app. right. left. reflexivity. }
  { apply new_otp_row_matches, Hnow. }
  pose proof (handler_creates_account (edge cenv) email otp w1 d Hd Huser Hcreate)
    as Hnew.
  pose proof (handler_credentials (edge cenv) email otp w1) as [Hkeep _].
  unfold verifyOtp. rewrite Hinv.
  destruct (handler (edge cenv) email otp w1) as [w2 response] eqn:Hh.
  cbn [fst snd] in *. subst response.
  change (reports_success success_response) with true. cbv iota.
  rewrite Hccs, (Hsc w2 Hkeep), Hpo.
  unfold signInWithPassword. rewrite Hsign, Hnew. cbn [user_password user_email_confirm user_id].
  rewrite Hcs, (Hsc w1 eq_refl).
  unfold resolve_password. subst cred. cbn [cred_password_hash].
  destruct (random_password senv) as [|ch rest]; [contradiction|].
  rewrite bool_decide_eq_true_2 by reflexivity. reflexivity.
Qed.

Lemma first_login_witness :
  snd (verifyOtp (a_login 1000) alice (lit "100000") one_code_world)
  = inr {| session_user := lit "user-1"; session_email := alice |}.
Proof.
  apply (first_login first_request (a_login 1000) alice empty_world);
    try reflexivity.
  - intros c [].
  - intros u [].
  - discriminate.
Defined.

(** X14. A wrong, used or expired code changes nothing on the way through
    [verifyOtp]: when no record passes the filters of the edge function, or
    the invocation itself fails, [verifyOtp] returns an error and no
    credential is written, no account is created and no sign-in is tried. *)
Theorem verifyOtp_refused (env : ClientEnv) (email token : jsstring) (w : World) :
  invoke_ok env = false
  \/ (forall r, In r (otp_verifications w) ->
                otp_matches email token (now (edge env)) r = false) ->
  verifyOtp env email token w = (w, inl EdgeFunctionError).
Proof.
  intros [Hinv|Hnone]; unfold verifyOtp.
  - rewrite Hinv. reflexivity.
  - destruct (invoke_ok env); [|reflexivity].
    rewrite (handler_no_match (edge env) email token w Hnone). reflexivity.
Qed.

Lemma verifyOtp_refused_witness :
  verifyOtp (a_login 600000) alice (lit "100000") one_code_world
  = (one_code_world, inl EdgeFunctionError).
Proof.
  apply verifyOtp_refused. right.
  intros r [<-|[]]. reflexivity.
Defined.

(** X15. [handleVerifyOtp] asks the backend only about a code of exactly six
    code units: any other input gets the toast 'Invalid OTP' and leaves the
    backend and [isLoading] alone. Every code [sendOtp] generates passes this
    check. *)
Theorem handleVerifyOtp_gate (env : ClientEnv) (c : State) (w : World) (m : Z) :
  (length (otp c) <> 6%nat ->
   handleVerifyOtp env c w = (add_toast (lit "Invalid OTP") true c, w))
  /\ (0 <= m <= Float64.below_one -> otpSchema (generate_otp m) = true).
Proof.
  split.
  - intros Hlen. unfold handleVerifyOtp, otpSchema.
    destruct (Nat.eqb_spec (length (otp c)) 6); [contradiction|reflexivity].
  - intros Hm. unfold otpSchema.
    destruct (generate_otp_digits m Hm) as (-> & _). reflexivity.
Qed.

Lemma handleVerifyOtp_gate_witness :
  snd (handleVerifyOtp (a_login 1000)
         {| isLoading := false; AuthPage.email := alice; otp := lit "1000";
            step := otp_step; isSignUp := false; page_toasts := [] |}
         one_code_world)
  = one_code_world
  /\ otpSchema (generate_otp (2 ^ 1073)) = true.
Proof.
  destruct (handleVerifyOtp_gate (a_login 1000)
              {| isLoading := false; AuthPage.email := alice; otp := lit "1000";
                 step := otp_step; isSignUp := false; page_toasts := [] |}
              one_code_world (2 ^ 1073)) as [Hshort Hgen].
  split.
  - rewrite Hshort; [reflexivity|]. cbn. lia.
  - apply Hgen. unfold Float64.below_one. lia.
Defined.

End Login.

(** ** Uploads, downloads and deletions *)

Section Objects.
Import Js Encryption Backend FileUpload FileList FileScenario.
Context `{C : AesGcm}.

Lemma fileExtension_loop_no_dot (acc name : jsstring) :
  Forall (fun c => c <> 46) acc ->
  Forall (fun c => c <> 46)
    (foldl (fun acc c => if c =? 46 then [] else acc ++ [c]) acc name).
Proof.
  revert acc. induction name as [|c name IH]; intros acc Hacc; [exact Hacc|].
  cbn. apply IH. destruct (N.eqb_spec c 46) as [_|Hc]; [constructor|].
  apply Forall_app. split; [exact Hacc|]. constructor; [exact Hc|constructor].
Qed.

Lemma fileExtension_loop_keep (acc name : jsstring) :
  Forall (fun c => c <> 46) name ->
  foldl (fun acc c => if c =? 46 then [] else acc ++ [c]) acc name = acc ++ name.
Proof.
  revert acc. induction name as [|c name IH]; intros acc Hname.
  - rewrite app_nil_r. reflexivity.
  - inversion_clear Hname as [|? ? Hc Hrest]. cbn.
    destruct (N.eqb_spec c 46) as [?|_]; [contradiction|].
    rewrite (IH _ Hrest), <- app_assoc. reflexivity.
Qed.

(** X16. The extension given to the stored object is what follows the last
    dot of the file name, and so holds no dot; a name without a dot is taken
    whole as the extension. *)
Theorem fileExtension_last_segment (stem ext : jsstring) :
  Forall (fun c => c <> 46) (fileExtension (stem ++ ext))
  /\ (Forall (fun c => c <> 46) ext ->
      fileExtension (stem ++ lit "." ++ ext) = ext /\ fileExtension ext = ext).
Proof.
  split.
  - apply fileExtension_loop_no_dot. constructor.
  - intros Hext. unfold fileExtension. split.
    + rewrite !foldl_app. cbn. apply (fileExtension_loop_keep [] ext Hext).
    + apply (fileExtension_loop_keep [] ext Hext).
Qed.

Lemma fileExtension_last_segment_witness :
  fileExtension (lit "archive.tar" ++ lit "." ++ lit "gz") = lit "gz"
  /\ fileExtension (lit "README") = lit "README".
Proof.
  split.
  - apply (proj2 (fileExtension_last_segment (lit "archive.tar") (lit "gz"))).
    repeat constructor; discriminate.
  - apply (proj2 (fileExtension_last_segment [] (lit "README"))).
    repeat constructor; discriminate.
Defined.

(** How far the [try] block of [uploadFile] got, by what it has written. *)
Lemma uploadFile_try_cases (env : UploadEnv) (f : File) (u : User) (w : World) :
  let ciphertext :=
    gcm_encrypt (getRandomValues (key_entropy env) 32) (generateIV (iv_entropy env))
      (data f) in
  let stored :=
    {| storage := <[upload_path env f u := ciphertext]> (storage w);
       files := files w |} in
  (exists e, uploadFile_try env f u w = (w, Throw e))
  \/ (storage w !! upload_path env f u = None
      /\ uploadFile_try env f u w = (stored, Throw PostgrestError))
  \/ (storage w !! upload_path env f u = None
      /\ existsb (fun r => bool_decide (id r = new_file_id env)) (files w) = false
      /\ uploadFile_try env f u w
         = ({| storage := storage stored;
               files := files w ++ [upload_record env f u] |}, Ok tt)).
Proof.
  cbv zeta.
  unfold uploadFile_try, encryptFile, lift, storage_upload, files_insert,
    mbind, io_mbind, io_bind.
  rewrite arrayBufferToBase64_spec.
  destruct (_ <=? _); [|left; eauto].
  destruct (storage_upload_ok env && _) eqn:Hst; [|left; eauto].
  apply andb_true_iff in Hst as [_ Hst]. apply bool_decide_eq_true in Hst.
  right. cbn [id files].
  destruct (files_insert_ok env && _) eqn:Hins.
  - right. apply andb_true_iff in Hins as [_ Hins]. apply negb_true_iff in Hins.
    split; [exact Hst|]. split; [exact Hins|]. reflexivity.
  - left. split; [exact Hst|]. reflexivity.
Qed.

(** X17. [uploadFile] only adds: every object of the bucket is still there,
    unchanged, under its path, and the table holds its old records followed
    by at most one new record. *)
Theorem uploadFile_only_adds (env : UploadEnv) (user : option User)
    (c : Component) (w : World) :
  let w' := snd (uploadFile env user c w) in
  (forall path object, storage w !! path = Some object ->
                       storage w' !! path = Some object)
  /\ exists added, files w' = files w ++ added /\ (length added <= 1)%nat.
Proof.
  cbv zeta. unfold uploadFile.
  destruct (selectedFile c) as [f|]; [|split; [auto|exists []; rewrite app_nil_r; auto]].
  destruct user as [u|]; [|split; [auto|exists []; rewrite app_nil_r; auto]].
  destruct (uploadFile_try_cases env f u w) as [[e He]|[[Hfree He]|(Hfree & _ & He)]];
    rewrite He; cbn [snd storage files].
  - destruct e; split; auto; exists []; rewrite app_nil_r; auto.
  - split; [|exists []; rewrite app_nil_r; auto].
    intros path object Hp. rewrite lookup_insert_ne; [exact Hp|]. congruence.
  - split; [|eexists; split; [reflexivity|cbn; lia]].
    intros path object Hp. rewrite lookup_insert_ne; [exact Hp|]. congruence.
Qed.

Lemma existsb_key_true {A} (f : A -> jsstring) (a : jsstring) (l : list A) (r : A) :
  In r l -> f r = a -> existsb (fun r => bool_decide (f r = a)) l = true.
Proof.
  intros Hin Hr. apply existsb_exists. exists r. split; [exact Hin|].
  apply bool_decide_eq_true_2, Hr.
Qed.

(** X18. When the object has been stored and the insert into [files] is
    refused (the call fails, or the key is taken), [uploadFile] ends in
    [error] with the toast 'Upload failed', the ciphertext stays in the
    bucket under its path, and the table has no record of it. *)
Theorem uploadFile_orphan (env : UploadEnv) (u : User) (f : File)
    (c : Component) (w : World) :
  selectedFile c = Some f ->
  N.of_nat (length (data f)) <= 2 ^ 39 - 256 ->
  storage_upload_ok env = true ->
  storage w !! upload_path env f u = None ->
  files_insert_ok env = false
  \/ (exists r, In r (files w) /\ id r = new_file_id env) ->
  uploadFile env (Some u) c w
  = ({| selectedFile := Some f;
        uploadStatus := {| status := error; progress := 0 |};
        toasts := toasts c ++ [{| title := lit "Upload failed";
                                  destructive := true |}] |},
     {| storage :=
          <[upload_path env f u :=
              gcm_encrypt (getRandomValues (key_entropy env) 32)
                (generateIV (iv_entropy env)) (data f)]> (storage w);
        files := files w |}).
Proof.
  intros Hsel Hsize Hok Hfree Hins.
  unfold uploadFile. rewrite Hsel.
  unfold uploadFile_try, encryptFile, lift, storage_upload, files_insert,
    mbind, io_mbind, io_bind.
  rewrite arrayBufferToBase64_spec.
  destruct (N.leb_spec (N.of_nat (length (data f))) (2 ^ 39 - 256)) as [_|Hgt];
    [|lia].
  fold (upload_path env f u).
  rewrite Hok, (bool_decide_eq_true_2 _ Hfree). cbn [andb id files].
  replace (files_insert_ok env && _) with false; [reflexivity|].
  symmetry. destruct Hins as [->|(r & Hin & Hr)]; [reflexivity|].
  rewrite (existsb_key_true id (new_file_id env) (files w) r Hin Hr).
  apply andb_false_r.
Qed.

(** X19. An upload that does not end in [success] leaves the table as it
    was; and when the storage call is refused (it fails, or the path is
    taken, so that no object is ever overwritten), the upload ends in [error]
    and has written nothing. *)
Theorem uploadFile_failure (env : UploadEnv) (u : User) (f : File)
    (c : Component) (w : World) :
  selectedFile c = Some f ->
  (status (uploadStatus (fst (uploadFile env (Some u) c w))) <> success ->
   files (snd (uploadFile env (Some u) c w)) = files w)
  /\ (storage_upload_ok env = false \/ storage w !! upload_path env f u <> None ->
      snd (uploadFile env (Some u) c w) = w
      /\ status (uploadStatus (fst (uploadFile env (Some u) c w))) = error).
Proof.
  intros Hsel. unfold uploadFile. rewrite Hsel. split.
  - destruct (uploadFile_try_cases env f u w) as [[e He]|[[Hfree He]|(Hfree & _ & He)]];
      rewrite He; cbn; [reflexivity|reflexivity|congruence].
  - intros Hrefused.
    unfold uploadFile_try, encryptFile, lift, storage_upload, files_insert,
      mbind, io_mbind, io_bind.
    rewrite arrayBufferToBase64_spec.
    destruct (_ <=? _); [|split; reflexivity].
    fold (upload_path env f u).
    replace (storage_upload_ok env && _) with false; [split; reflexivity|].
    symmetry. destruct Hrefused as [->|Htaken]; [reflexivity|].
    rewrite (bool_decide_eq_false_2 _ Htaken). apply andb_false_r.
Qed.

(** X20. The record of an upload that ended in [success]: the object lies
    under the id of its owner, then a slash, then the stored file name, which
    is the random UUID, a dot and the extension; the key text has 44
    characters and the nonce text 24. *)
Theorem upload_record_shape (env : UploadEnv) (u : User) (f : File)
    (c : Component) (w : World) :
  selectedFile c = Some f ->
  status (uploadStatus (fst (uploadFile env (Some u) c w))) = success ->
  exists record,
    files (snd (uploadFile env (Some u) c w)) = files w ++ [record]
    /\ user_id record = uid u
    /\ filename record = randomUUID env ++ lit "." ++ fileExtension (name f)
    /\ storage_path record = uid u ++ lit "/" ++ filename record
    /\ length (encrypted_key record) = 44%nat
    /\ length (Backend.iv record) = 24%nat.
Proof.
  intros Hsel Hsuccess.
  apply uploadFile_success with (f := f) in Hsuccess; [|exact Hsel].
  destruct (uploadFile_try_Ok env f u w _ Hsuccess) as [_ Hfiles].
  exists (upload_record env f u).
  split; [exact Hfiles|]. split; [reflexivity|]. split; [reflexivity|].
  split; [reflexivity|]. cbn [encrypted_key Backend.iv upload_record]. split.
  - rewrite base64_encode_text_length, length_fmap.
    unfold exportKey, generateEncryptionKey. cbn [key_raw].
    rewrite getRandomValues_length. reflexivity.
  - rewrite uint8ArrayToHex_length. unfold generateIV.
    rewrite getRandomValues_length. reflexivity.
Qed.

(** [downloadFile] reads the backend and leaves it as it is. *)
Lemma downloadFile_try_reads (ok : bool) (file : FileRecord) (w : World) :
  fst (downloadFile_try ok file w) = w.
Proof.
  unfold downloadFile_try, mbind, io_mbind.
  apply (io_bind_preserves (fun w' => w' = w)); [reflexivity | |].
  { intros w0 ->. unfold storage_download.
    destruct (if ok then _ else _); reflexivity. }
  do 4 (intros ? w0 ->;
        apply (io_bind_preserves (fun w' => w' = w));
        [reflexivity | intros w1 ->; reflexivity |]).
  intros ? w0 ->. reflexivity.
Qed.

Lemma downloadFile_no_object (ok : bool) (file : FileRecord) (w : World) :
  ok = false \/ storage w !! storage_path file = None ->
  downloadFile ok file w = Throw StorageError.
Proof.
  intros Hmiss. unfold downloadFile, downloadFile_try, storage_download,
    mbind, io_mbind, io_bind.
  replace (if ok then storage w !! storage_path file else None)
    with (@None (list byte)); [reflexivity|].
  destruct Hmiss as [->| ->]; [reflexivity|]. destruct ok; reflexivity.
Qed.

(** X21. [downloadFile] changes nothing in the bucket or the table, and when
    the object of the record is missing, or the storage call fails, it fails
    with the error of the storage, whatever key and nonce the record
    holds. *)
Theorem downloadFile_missing_object (ok : bool) (file : FileRecord) (w : World) :
  fst (downloadFile_try ok file w) = w
  /\ (ok = false \/ storage w !! storage_path file = None ->
      downloadFile ok file w = Throw StorageError).
Proof.
  split; [apply downloadFile_try_reads | apply downloadFile_no_object].
Qed.

(** X22. With the object in the bucket, [downloadFile] fails on the key of
    the record before it decrypts: with the error of [atob] when the key text
    is not base64, and with [DataError] when it decodes to a number of bytes
    other than 16, 24 or 32. *)
Theorem downloadFile_bad_key (file : FileRecord) (w : World) (object : list byte) :
  storage w !! storage_path file = Some object ->
  (forall e, base64ToArrayBuffer (encrypted_key file) = Throw e ->
             downloadFile true file w = Throw e)
  /\ (forall keyData,
        base64ToArrayBuffer (encrypted_key file) = Ok keyData ->
        length keyData ∉ [16; 24; 32]%nat ->
        downloadFile true file w = Throw DataError).
Proof.
  intros Hobj.
  unfold downloadFile, downloadFile_try, storage_download, lift,
    mbind, io_mbind, io_bind.
  rewrite Hobj. split.
  - intros e ->. reflexivity.
  - intros keyData -> Hlen. unfold importKey.
    rewrite (bool_decide_eq_false_2 _ Hlen). reflexivity.
Qed.

End Objects.

(** ** The life of a stored file *)

Section Lifecycle.
Import Js Encryption Backend FileUpload FileList FileScenario.
Context `{C : AesGcm}.

Lemma uploadFile_try_fresh (env : UploadEnv) (f : File) (u : User) (w w' : World) :
  uploadFile_try env f u w = (w', Ok tt) ->
  storage w !! upload_path env f u = None
  /\ existsb (fun r => bool_decide (id r = new_file_id env)) (files w) = false.
Proof.
  intros Hok.
  destruct (uploadFile_try_cases env f u w) as [[e He]|[[Hfree He]|(Hfree & Hid & He)]];
    rewrite He in Hok; try discriminate Hok.
  auto.
Qed.

Lemma filter_other_keys (key : jsstring) (l : list FileRecord) :
  existsb (fun r => bool_decide (id r = key)) l = false ->
  List.filter (fun r => negb (bool_decide (id r = key))) l = l.
Proof.
  induction l as [|r l IH]; [reflexivity|]. cbn.
  intros Hex. apply orb_false_iff in Hex as [Hr Hl].
  rewrite Hr. cbn. f_equal. apply IH, Hl.
Qed.

(** X23. Deleting a file: when both calls go through, the object under the
    path of the record is gone and every other object is as before; the
    table and the list shown keep exactly the records under other ids. *)
Theorem deleteFile_deletes (file : FileRecord) (c : ListState) (w : World) :
  let c' := fst (deleteFile true true file c w) in
  let w' := snd (deleteFile true true file c w) in
  storage w' !! storage_path file = None
  /\ (forall path, path <> storage_path file -> storage w' !! path = storage w !! path)
  /\ (forall r, In r (files w') <-> In r (files w) /\ id r <> id file)
  /\ (forall r, In r (shown c') <-> In r (shown c) /\ id r <> id file).
Proof.
  cbv zeta.
  unfold deleteFile, deleteFile_try, storage_remove, files_delete,
    mbind, io_mbind, io_bind.
  cbn [fst snd storage files shown foldr].
  split; [apply lookup_delete_eq|].
  split; [intros path Hp; apply lookup_delete_ne; congruence|].
  split; intros r; rewrite filter_In, negb_true_iff, bool_decide_eq_false; tauto.
Qed.

(** X24. A deletion that fails half way: when the object has been removed
    and the delete on [files] fails, the record stays in the table and in the
    list shown, its object is gone, and a download of it fails with the error
    of the storage; when the removal itself fails, nothing has changed. *)
Theorem deleteFile_partial (file : FileRecord) (c : ListState) (w : World)
    (delete_ok : bool) :
  let failed :=
    {| shown := shown c; loading := loading c;
       list_toasts := list_toasts c ++ [toast_of (lit "Delete failed") true] |} in
  (exists w', deleteFile true false file c w = (failed, w')
              /\ files w' = files w
              /\ forall ok, downloadFile ok file w' = Throw StorageError)
  /\ deleteFile false delete_ok file c w = (failed, w).
Proof.
  cbv zeta. split; [|reflexivity].
  eexists. split; [reflexivity|]. split; [reflexivity|].
  intros ok. apply downloadFile_no_object. right. cbn. apply lookup_delete_eq.
Qed.

(** X25. Uploading a file and deleting its record again puts the bucket and
    the table back as they were. *)
Theorem upload_then_delete (env : UploadEnv) (u : User) (f : File)
    (c : Component) (lc : ListState) (w : World) :
  selectedFile c = Some f ->
  status (uploadStatus (fst (uploadFile env (Some u) c w))) = success ->
  exists record,
    files (snd (uploadFile env (Some u) c w)) = files w ++ [record]
    /\ snd (deleteFile true true record lc (snd (uploadFile env (Some u) c w))) = w.
Proof.
  intros Hsel Hsuccess.
  apply uploadFile_success with (f := f) in Hsuccess; [|exact Hsel].
  destruct (uploadFile_try_Ok env f u w _ Hsuccess) as [Hst Hfiles].
  destruct (uploadFile_try_fresh env f u w _ Hsuccess) as [Hfree Hid].
  exists (upload_record env f u). split; [exact Hfiles|].
  unfold deleteFile, deleteFile_try, storage_remove, files_delete,
    mbind, io_mbind, io_bind.
  cbn [fst snd storage files foldr storage_path id upload_record].
  rewrite Hst, Hfiles.
  rewrite (delete_insert_id _ _ _ Hfree).
  rewrite List.filter_app, (filter_other_keys _ _ Hid).
  cbn [List.filter id upload_record].
  rewrite bool_decide_eq_true_2 by reflexivity. cbn [negb].
  rewrite app_nil_r. destruct w; reflexivity.
Qed.

Context {L : AesGcmCorrect C}.

(** The download of an upload's record, wherever its object is stored. *)
Lemma downloadFile_stored (env : UploadEnv) (f : File) (u : User) (w : World) :
  storage w !! upload_path env f u
  = Some (gcm_encrypt (getRandomValues (key_entropy env) 32)
            (generateIV (iv_entropy env)) (data f)) ->
  exists d, downloadFile true (upload_record env f u) w = Ok d /\ blob d = data f.
Proof.
  intros Hst.
  unfold downloadFile, downloadFile_try, storage_download, lift,
    mbind, io_mbind, io_bind, mret, io_mret, io_ret.
  cbn [storage_path upload_record encrypted_key Backend.iv mime_type
       original_filename].
  rewrite Hst, base64ToArrayBuffer_encode.
  unfold importKey, exportKey, generateEncryptionKey. cbn [key_raw].
  rewrite getRandomValues_length.
  rewrite bool_decide_eq_true_2 by (repeat constructor).
  rewrite hex_roundtrip.
  unfold decryptFile. cbn [key_raw].
  rewrite gcm_decrypt_encrypt
    by (unfold generateIV; apply getRandomValues_length).
  eexists. split; reflexivity.
Qed.

(** X26. Two uploads never share an object: after two uploads in a row that
    end in [success], the two records lie under different paths and each one
    still downloads to the bytes of its own file. *)
Theorem uploads_do_not_alias (env1 env2 : UploadEnv) (u1 u2 : User)
    (f1 f2 : File) (c1 c2 : Component) (w : World) :
  selectedFile c1 = Some f1 -> selectedFile c2 = Some f2 ->
  let w1 := snd (uploadFile env1 (Some u1) c1 w) in
  let w2 := snd (uploadFile env2 (Some u2) c2 w1) in
  status (uploadStatus (fst (uploadFile env1 (Some u1) c1 w))) = success ->
  status (uploadStatus (fst (uploadFile env2 (Some u2) c2 w1))) = success ->
  exists record1 record2,
    files w2 = files w ++ [record1; record2]
    /\ storage_path record1 <> storage_path record2
    /\ (exists d, downloadFile true record1 w2 = Ok d /\ blob d = data f1)
    /\ (exists d, downloadFile true record2 w2 = Ok d /\ blob d = data f2).
Proof.
  intros Hsel1 Hsel2. cbv zeta. intros Hs1 Hs2.
  apply uploadFile_success with (f := f1) in Hs1; [|exact Hsel1].
  set (w1 := snd (uploadFile env1 (Some u1) c1 w)) in *.
  apply uploadFile_success with (f := f2) in Hs2; [|exact Hsel2].
  set (w2 := snd (uploadFile env2 (Some u2) c2 w1)) in *.
  destruct (uploadFile_try_Ok env1 f1 u1 w w1 Hs1) as [Hst1 Hfiles1].
  destruct (uploadFile_try_Ok env2 f2 u2 w1 w2 Hs2) as [Hst2 Hfiles2].
  destruct (uploadFile_try_fresh env2 f2 u2 w1 w2 Hs2) as [Hfree2 _].
  assert (Hne : upload_path env1 f1 u1 <> upload_path env2 f2 u2).
  { intros Heq. rewrite <- Heq, Hst1, lookup_insert_eq in Hfree2. discriminate. }
  exists (upload_record env1 f1 u1), (upload_record env2 f2 u2).
  split; [rewrite Hfiles2, Hfiles1, <- app_assoc; reflexivity|].
  split; [exact Hne|]. split.
  - apply downloadFile_stored.
    rewrite Hst2, lookup_insert_ne by congruence.
    rewrite Hst1. apply lookup_insert_eq.
  - apply downloadFile_stored. rewrite Hst2. apply lookup_insert_eq.
Qed.

End Lifecycle.

(** ** The list of files *)

Section Listing.
Import Js Backend FileUpload FileList.

#[local] Instance newer_first_total : Total newer_first.
Proof. intros a b. unfold newer_first. lia. Qed.

#[local] Instance newer_first_transitive : Transitive newer_first.
Proof. intros a b c. unfold newer_first. lia. Qed.

Lemma filter_In_user (uid : jsstring) (l : list FileRecord) (r : FileRecord) :
  In r (List.filter (fun r => bool_decide (user_id r = uid)) l)
  <-> In r l /\ user_id r = uid.
Proof. rewrite filter_In, bool_decide_eq_true. reflexivity. Qed.

(** X27. [fetchFiles] lists exactly the records of the user, each as often
    as the table holds it, the newest upload first, and clears [loading]. *)
Theorem fetchFiles_lists_own_files (u : User) (c : ListState) (w : World) :
  let c' := fetchFiles true (Some u) c w in
  shown c' ≡ₚ List.filter (fun r => bool_decide (user_id r = uid u)) (files w)
  /\ (forall r, In r (shown c') <-> In r (files w) /\ user_id r = uid u)
  /\ StronglySorted newer_first (shown c')
  /\ loading c' = false.
Proof.
  cbv zeta. cbn.
  pose proof (merge_sort_Permutation newer_first
                (List.filter (fun r => bool_decide (user_id r = uid u)) (files w)))
    as Hperm.
  split; [exact Hperm|]. split; [|split; [|reflexivity]].
  - intros r.
    rewrite <- filter_In_user. split; apply Permutation_in; [|symmetry]; exact Hperm.
  - apply StronglySorted_merge_sort; apply _.
Qed.

End Listing.

(** ** The properties of the files on a sample backend *)

Section StoredFiles.
Import Js Encryption Backend FileUpload FileList FileScenario.
Existing Instance SampleCipher.cipher.

Lemma uploadFile_only_adds_witness :
  exists object,
    storage (snd (uploadFile an_upload (Some bob)
                    (handleFileSelect (Some ten_bytes) initial) empty_backend))
    !! lit "7d1c/6f1e2d3c.txt" = Some object
    /\ storage (snd (uploadFile another_upload (Some bob)
                       (handleFileSelect (Some another_file) initial)
                       (snd (uploadFile an_upload (Some bob)
                               (handleFileSelect (Some ten_bytes) initial)
                               empty_backend))))
       !! lit "7d1c/6f1e2d3c.txt" = Some object.
Proof.
  eexists. split.
  - vm_compute. reflexivity.
  - apply (proj1 (uploadFile_only_adds another_upload (Some bob)
                    (handleFileSelect (Some another_file) initial)
                    (snd (uploadFile an_upload (Some bob)
                            (handleFileSelect (Some ten_bytes) initial)
                            empty_backend)))).
    vm_compute. reflexivity.
Defined.

Lemma uploadFile_orphan_witness :
  files (snd (uploadFile an_unrecorded_upload (Some bob)
                (handleFileSelect (Some ten_bytes) initial) empty_backend)) = []
  /\ is_Some (storage (snd (uploadFile an_unrecorded_upload (Some bob)
                              (handleFileSelect (Some ten_bytes) initial)
                              empty_backend))
              !! lit "7d1c/6f1e2d3c.txt").
Proof.
  rewrite (uploadFile_orphan an_unrecorded_upload bob ten_bytes
             (handleFileSelect (Some ten_bytes) initial) empty_backend).
  - split; [reflexivity|]. cbn [snd storage].
    change (upload_path an_unrecorded_upload ten_bytes bob)
      with (lit "7d1c/6f1e2d3c.txt").
    rewrite lookup_insert_eq. eauto.
  - reflexivity.
  - cbn. lia.
  - reflexivity.
  - reflexivity.
  - left. reflexivity.
Defined.

Lemma uploadFile_failure_witness :
  snd (uploadFile an_upload (Some bob)
         (handleFileSelect (Some ten_bytes) initial)
         (snd (uploadFile an_upload (Some bob)
                 (handleFileSelect (Some ten_bytes) initial) empty_backend)))
  = snd (uploadFile an_upload (Some bob)
           (handleFileSelect (Some ten_bytes) initial) empty_backend).
Proof.
  apply (proj2 (uploadFile_failure an_upload bob ten_bytes
                  (handleFileSelect (Some ten_bytes) initial) _ eq_refl)).
  right. vm_compute. discriminate.
Defined.

Lemma upload_record_shape_witness :
  exists record,
    files (snd (uploadFile an_upload (Some bob)
                  (handleFileSelect (Some ten_bytes) initial) empty_backend))
    = [record]
    /\ storage_path record = lit "7d1c/6f1e2d3c.txt"
    /\ length (encrypted_key record) = 44%nat.
Proof.
  destruct (upload_record_shape an_upload bob ten_bytes
              (handleFileSelect (Some ten_bytes) initial) empty_backend)
    as (record & Hfiles & _ & Hname & Hpath & Hkey & _).
  - reflexivity.
  - vm_compute. reflexivity.
  - exists record. split; [exact Hfiles|]. split; [|exact Hkey].
    rewrite Hpath, Hname. reflexivity.
Defined.

Lemma downloadFile_missing_object_witness :
  downloadFile true (upload_record an_upload ten_bytes bob) empty_backend
  = Throw StorageError.
Proof.
  apply (proj2 (downloadFile_missing_object true
                  (upload_record an_upload ten_bytes bob) empty_backend)).
  right. reflexivity.
Defined.

Lemma downloadFile_bad_key_witness :
  downloadFile true
    {| id := lit "file-9"; user_id := lit "7d1c"; filename := lit "x.txt";
       original_filename := lit "x.txt"; storage_path := lit "7d1c/x.txt";
       file_size := 1; mime_type := None; encrypted_key := lit "TWE=";
       Backend.iv := lit "00"; uploaded_at := 0 |}
    {| storage := {[ lit "7d1c/x.txt" := [x00] ]}; files := [] |}
  = Throw DataError.
Proof.
  refine (proj2 (downloadFile_bad_key _ _ [x00] _) [x4d; x61] _ _).
  - reflexivity.
  - reflexivity.
  - rewrite list_elem_of_In. cbn. lia.
Defined.

Lemma deleteFile_deletes_witness :
  storage (snd (deleteFile true true (upload_record an_upload ten_bytes bob)
                  {| shown := []; loading := false; list_toasts := [] |}
                  (snd (uploadFile another_upload (Some bob)
                          (handleFileSelect (Some another_file) initial)
                          (snd (uploadFile an_upload (Some bob)
                                  (handleFileSelect (Some ten_bytes) initial)
                                  empty_backend))))))
  !! lit "7d1c/a0b1c2d3.photo"
  = storage (snd (uploadFile another_upload (Some bob)
                    (handleFileSelect (Some another_file) initial)
                    (snd (uploadFile an_upload (Some bob)
                            (handleFileSelect (Some ten_bytes) initial)
                            empty_backend))))
    !! lit "7d1c/a0b1c2d3.photo".
Proof.
  apply (proj1 (proj2 (deleteFile_deletes (upload_record an_upload ten_bytes bob)
                         {| shown := []; loading := false; list_toasts := [] |}
                         (snd (uploadFile another_upload (Some bob)
                                 (handleFileSelect (Some another_file) initial)
                                 (snd (uploadFile an_upload (Some bob)
                                         (handleFileSelect (Some ten_bytes) initial)
                                         empty_backend))))))).
  vm_compute. discriminate.
Defined.

Lemma upload_then_delete_witness :
  exists record,
    files (snd (uploadFile an_upload (Some bob)
                  (handleFileSelect (Some ten_bytes) initial) empty_backend))
    = [record]
    /\ snd (deleteFile true true record
              {| shown := []; loading := false; list_toasts := [] |}
              (snd (uploadFile an_upload (Some bob)
                      (handleFileSelect (Some ten_bytes) initial) empty_backend)))
       = empty_backend.
Proof.
  apply (upload_then_delete an_upload bob ten_bytes
           (handleFileSelect (Some ten_bytes) initial)
           {| shown := []; loading := false; list_toasts := [] |} empty_backend).
  - reflexivity.
  - vm_compute. reflexivity.
Defined.

Lemma uploads_do_not_alias_witness :
  exists record1 record2,
    files (snd (uploadFile another_upload (Some bob)
                  (handleFileSelect (Some another_file) initial)
                  (snd (uploadFile an_upload (Some bob)
                          (handleFileSelect (Some ten_bytes) initial)
                          empty_backend))))
    = [record1; record2]
    /\ storage_path record1 <> storage_path record2
    /\ (exists d,
          downloadFile true record1
            (snd (uploadFile another_upload (Some bob)
                    (handleFileSelect (Some another_file) initial)
                    (snd (uploadFile an_upload (Some bob)
                            (handleFileSelect (Some ten_bytes) initial)
                            empty_backend))))
          = Ok d
          /\ blob d = [x48; x65; x6c; x6c; x6f; x2c; x20; x4a; x53; x21])
    /\ (exists d,
          downloadFile true record2
            (snd (uploadFile another_upload (Some bob)
                    (handleFileSelect (Some another_file) initial)
                    (snd (uploadFile an_upload (Some bob)
                            (handleFileSelect (Some ten_bytes) initial)
                            empty_backend))))
          = Ok d
          /\ blob d = [xff; xd8; xff]).
Proof.
  apply (uploads_do_not_alias (L := cipher_correct) an_upload another_upload
           bob bob ten_bytes another_file
           (handleFileSelect (Some ten_bytes) initial)
           (handleFileSelect (Some another_file) initial) empty_backend).
  - reflexivity.
  - reflexivity.
  - vm_compute. reflexivity.
  - vm_compute. reflexivity.
Defined.

End StoredFiles.
